(** * fetch-deal-images: a shallow embedding of [scripts/fetch-deal-images.mjs]

    The script walks the catalog of deals, and for every deal without an
    image fetches the deal's page, picks a product image with a chain of
    heuristics, downloads it, normalises it and records the local path in
    the catalog.

    Conventions of the embedding.
    - JavaScript strings are Stdlib [string]s, read as sequences of code
      units below 256; the regular expressions of the script only mention
      ASCII characters.
    - A JavaScript value that flows through the pickers is a [json] value;
      [JNull] stands for both [null] and [undefined].
    - A number of a JavaScript value is an IEEE 754 binary64 value, a
      [spec_float] of the Standard Library multiplied and compared at
      precision 53; the dimensions [sharp] reports are integers ([Z]).
      What a string, an array or an object converts to when it is
      multiplied is left to the environment.
    - Platform functions the script calls but does not define ([URL],
      [JSON.parse], [cheerio.load], [fetch], [sharp], the file system) are
      fields of an environment record; an exception is a [Throw] result.
    - Console output and I/O requests are recorded in a trace of [event]s. *)

From Stdlib Require Import String Ascii List ZArith Bool Lia DecimalString.
From Stdlib Require Import Floats.SpecFloat.
Import ListNotations.
Local Open Scope string_scope.
Local Open Scope Z_scope.
Local Set Warnings "-register-all".

(** ** Strings *)

Module Str.

(** [!!s] for a string: the empty string is falsy. *)
Definition truthy (s : string) : bool :=
  match s with EmptyString => false | String _ _ => true end.

(** [s.startsWith(p)] *)
Definition startsWith (s p : string) : bool := String.prefix p s.

Definition chars (s : string) : list ascii := list_ascii_of_string s.

(** ASCII lower-casing of one code unit; this is the canonicalisation the
    [i] flag performs on the patterns of the script. *)
Definition lower (c : ascii) : ascii :=
  let n := nat_of_ascii c in
  if (Nat.leb 65 n && Nat.leb n 90)%bool then ascii_of_nat (n + 32) else c.

Definition eq_ci (a b : ascii) : bool := Ascii.eqb (lower a) (lower b).

(** [toLowerCase] of one code unit below 256: the ASCII capitals and the
    capitals of Latin-1, which are 192 to 222 but for the multiplication
    sign, move up by 32. *)
Definition toLower (c : ascii) : ascii :=
  let n := nat_of_ascii c in
  if ((Nat.leb 65 n && Nat.leb n 90)
      || (Nat.leb 192 n && Nat.leb n 222 && negb (Nat.eqb n 215)))%bool
  then ascii_of_nat (n + 32) else c.

(** [s.toLowerCase()] *)
Fixpoint toLowerCase (s : string) : string :=
  match s with
  | EmptyString => EmptyString
  | String c r => String (toLower c) (toLowerCase r)
  end.

(** The line terminators in the 8-bit range; [.] does not match them. *)
Definition is_line_terminator (c : ascii) : bool :=
  let n := nat_of_ascii c in (Nat.eqb n 10 || Nat.eqb n 13)%bool.

(** White space removed by [String.prototype.trim], in the 8-bit range. *)
Definition is_space (c : ascii) : bool :=
  let n := nat_of_ascii c in
  ((Nat.leb 9 n && Nat.leb n 13) || Nat.eqb n 32 || Nat.eqb n 160)%bool.

Fixpoint trimStart (s : string) : string :=
  match s with
  | EmptyString => EmptyString
  | String c r => if is_space c then trimStart r else s
  end.

Fixpoint trimEnd (s : string) : string :=
  match s with
  | EmptyString => EmptyString
  | String c r =>
      match trimEnd r with
      | EmptyString => if is_space c then EmptyString else String c EmptyString
      | r' => String c r'
      end
  end.

Definition trim (s : string) : string := trimEnd (trimStart s).

(** [s.split(sep)] for a one-character separator: never the empty list. *)
Fixpoint split (sep : ascii) (s : string) : list string :=
  match s with
  | EmptyString => [EmptyString]
  | String c r =>
      if Ascii.eqb c sep then EmptyString :: split sep r
      else match split sep r with
           | [] => [String c EmptyString]
           | h :: t => String c h :: t
           end
  end.

(** [s.replace(/pat/g, by)] for a literal, non-empty pattern. The fuel is
    the length of the string, which bounds the number of steps. *)
Fixpoint replaceAll_fuel (fuel : nat) (pat by_ s : string) : string :=
  match fuel with
  | O => s
  | S fuel' =>
      match s with
      | EmptyString => EmptyString
      | String c r =>
          if String.prefix pat s
          then by_ ++ replaceAll_fuel fuel'
                        pat by_ (String.substring (String.length pat)
                                   (String.length s - String.length pat) s)
          else String c (replaceAll_fuel fuel' pat by_ r)
      end
  end.

Definition replaceAll (pat by_ s : string) : string :=
  replaceAll_fuel (S (String.length s)) pat by_ s.

Definition of_nat (n : nat) : string := NilZero.string_of_uint (Nat.to_uint n).

Definition of_Z (z : Z) : string :=
  if (z <? 0)%Z then String "-" (of_nat (Z.abs_nat z)) else of_nat (Z.abs_nat z).

End Str.

(** ** The regular expressions of the script

  Every pattern of the script is a sequence of literal characters and
  [.*], tested with the [i] flag, either anywhere in the subject or
  anchored at its start. *)

Module Regex.

Inductive item :=
| Lit (c : ascii)     (* a literal character, compared ignoring ASCII case *)
| AnyStar.            (* [.*] *)

Definition lit (s : string) : list item := map Lit (Str.chars s).

(** Does the pattern match a prefix of the subject? *)
Fixpoint match_here (p : list item) (s : list ascii) {struct p} : bool :=
  match p with
  | [] => true
  | Lit c :: p' =>
      match s with
      | [] => false
      | c' :: s' => Str.eq_ci c c' && match_here p' s'
      end
  | AnyStar :: p' =>
      (fix star (s : list ascii) : bool :=
         match_here p' s ||
         match s with
         | [] => false
         | c' :: s' => negb (Str.is_line_terminator c') && star s'
         end) s
  end.

(** Does the pattern match somewhere in the subject? *)
Fixpoint search (p : list item) (s : list ascii) : bool :=
  match_here p s ||
  match s with
  | [] => false
  | _ :: s' => search p s'
  end.

Definition test (p : list item) (s : string) : bool := search p (Str.chars s).
Definition test_anchored (p : list item) (s : string) : bool :=
  match_here p (Str.chars s).

End Regex.

(** ** Numbers

  The numbers of the script are doubles. Multiplication rounds to the
  nearest double, ties to even; a comparison with NaN is false. *)

Module Double.

Definition t : Type := spec_float.

Definition prec : Z := 53.
Definition emax : Z := 1024.

(** The double of an integer literal: the integer itself up to [2^53], the
    nearest double beyond. *)
Definition of_Z (z : Z) : t := binary_normalize prec emax z 0 false.

Definition zero : t := S754_zero false.

Definition is_nan (x : t) : bool :=
  match x with S754_nan => true | _ => false end.

(** [!!x]: the two zeros and NaN are falsy. *)
Definition truthy (x : t) : bool :=
  match x with S754_zero _ | S754_nan => false | _ => true end.

(** [x * y] *)
Definition mul (x y : t) : t := SFmul prec emax x y.

(** [x < y] *)
Definition ltb (x y : t) : bool := SFltb x y.

End Double.

(** ** JavaScript values *)

Inductive json :=
| JNull
| JBool (b : bool)
| JNum (x : Double.t)
| JStr (s : string)
| JArr (items : list json)
| JObj (fields : list (string * json)).

(** [!!v] *)
Definition truthy (v : json) : bool :=
  match v with
  | JNull => false
  | JBool b => b
  | JNum x => Double.truthy x
  | JStr s => Str.truthy s
  | JArr _ | JObj _ => true
  end.

(** [a || b] *)
Definition js_or (a b : json) : json := if truthy a then a else b.
Infix "-||-" := js_or (at level 50, left associativity).

Fixpoint assoc {A : Type} (k : string) (l : list (string * A)) : option A :=
  match l with
  | [] => None
  | (k', v) :: r => if String.eqb k k' then Some v else assoc k r
  end.

(** [v.name] for the two property names the script reads, [image] and
    [offers]: only an object can own them. [None] is [undefined]. *)
Definition get_prop (v : json) (name : string) : option json :=
  match v with
  | JObj fields => assoc name fields
  | _ => None
  end.

Fixpoint indexed {A : Type} (i : nat) (l : list A) : list (string * A) :=
  match l with
  | [] => []
  | x :: r => (Str.of_nat i, x) :: indexed (S i) r
  end.

(** [Object.entries(v)]; [None] when it throws (on [null]). The fields of a
    [JObj] are kept in the order in which the engine enumerates them. *)
Definition Object_entries (v : json) : option (list (string * json)) :=
  match v with
  | JNull => None
  | JBool _ | JNum _ => Some []
  | JStr s => Some (indexed 0 (map (fun c => JStr (String c EmptyString)) (Str.chars s)))
  | JArr items => Some (indexed 0 items)
  | JObj fields => Some fields
  end.

(** [Object.keys(v)] *)
Definition Object_keys (v : json) : option (list string) :=
  option_map (map fst) (Object_entries v).

(** ** The parsed page, as cheerio exposes it *)

Inductive node :=
| Element (tag : string) (attrs : list (string * string)) (children : list node)
| TextNode (data : string).

Definition document := list node.

Definition node_attrs (n : node) : list (string * string) :=
  match n with Element _ a _ => a | TextNode _ => [] end.

Definition node_tag (n : node) : string :=
  match n with Element t _ _ => t | TextNode _ => "" end.

(** All elements below (and including) a node, in document order. *)
Fixpoint elements (n : node) : list node :=
  match n with
  | TextNode _ => []
  | Element _ _ cs => n :: flat_map elements cs
  end.

Definition all_elements (doc : document) : list node := flat_map elements doc.

(** [$(el).contents().text()]: the text below a node. *)
Fixpoint node_text (n : node) : string :=
  match n with
  | TextNode d => d
  | Element _ _ cs => String.concat "" (map node_text cs)
  end.

Definition contents_text (n : node) : string :=
  match n with
  | TextNode _ => ""
  | Element _ _ cs => String.concat "" (map node_text cs)
  end.

Definition has_attr (name : string) (n : node) : bool :=
  match assoc name (node_attrs n) with Some _ => true | None => false end.

Definition attr_is (name value : string) (n : node) : bool :=
  match assoc name (node_attrs n) with Some v => String.eqb v value | None => false end.

(** [$('tag[name="value"]')] for an attribute whose value is compared as it
    is, as [property] and [name] are. *)
Definition select_tag_attr (doc : document) (tag name value : string) : list node :=
  filter (fun n => String.eqb (node_tag n) tag && attr_is name value n) (all_elements doc).

(** The test of an attribute selector on an attribute whose value HTML
    compares ignoring case, as [type] is: the two values have the same
    length and are equal once lower-cased. *)
Definition attr_is_ci (name value : string) (n : node) : bool :=
  match assoc name (node_attrs n) with
  | Some v =>
      Nat.eqb (String.length v) (String.length value)
      && String.eqb (Str.toLowerCase v) (Str.toLowerCase value)
  | None => false
  end.

(** [$('tag[name="value"]')] for such an attribute. *)
Definition select_tag_attr_ci (doc : document) (tag name value : string) : list node :=
  filter (fun n => String.eqb (node_tag n) tag && attr_is_ci name value n)
         (all_elements doc).

(** [$('#id')] *)
Definition select_id (doc : document) (id : string) : list node :=
  filter (attr_is "id" id) (all_elements doc).

(** [$('img[src], img[srcset]')] *)
Definition select_img_src_srcset (doc : document) : list node :=
  filter (fun n => String.eqb (node_tag n) "img" && (has_attr "src" n || has_attr "srcset" n))
         (all_elements doc).

(** [$('#id tag')]: the [tag] elements with an ancestor of that id. *)
Fixpoint descendants_in (id tag : string) (inside : bool) (n : node) : list node :=
  match n with
  | TextNode _ => []
  | Element t a cs =>
      (if inside && String.eqb t tag then [n] else []) ++
      flat_map (descendants_in id tag (inside || attr_is "id" id n)) cs
  end.

Definition select_id_descendants (doc : document) (id tag : string) : list node :=
  flat_map (descendants_in id tag false) doc.

(** [sel.attr(name)]: the attribute of the first element of the selection. *)
Definition attr (sel : list node) (name : string) : option string :=
  match sel with
  | [] => None
  | n :: _ => assoc name (node_attrs n)
  end.

(** A string attribute that is present and not empty: [if (v)]. *)
Definition attr_truthy (sel : list node) (name : string) : option string :=
  match attr sel name with
  | Some v => if Str.truthy v then Some v else None
  | None => None
  end.

(** ** The catalog *)

Module Deal.

(** One entry of [deals.json]; [None] is an absent field. *)
Record t := {
  id : option string;
  url : option string;
  image : option string;
  imageAlt : option string;
  title : option string;
}.

(** [!!d.field] *)
Definition present (f : option string) : bool :=
  match f with Some s => Str.truthy s | None => false end.

(** [a || b] on two fields. *)
Definition or_else (a b : option string) : option string :=
  if present a then a else b.

End Deal.

(** ** Results, events and the environment *)

Inductive result (A : Type) :=
| Ok (a : A)
| Throw (message : string).
Arguments Ok {A} a.
Arguments Throw {A} message.

Definition buffer := list Byte.byte.

(** What [fetch] resolves to. *)
Record response := {
  status : Z;
  text : result string;
  arrayBuffer : result buffer;
}.

(** [res.ok] *)
Definition ok (res : response) : bool := (200 <=? status res) && (status res <=? 299).

(** What [sharp(buf).metadata()] resolves to. *)
Record metadata := {
  width : option Z;
  height : option Z;
}.

(** The lines the script prints. *)
Inductive message :=
| MsgStarting
| MsgFetch (id url : string)
| MsgCandidate (imgUrl : string)
| MsgNoUsableImage (id : string)
| MsgTinyFallback (absFallback : string)
| MsgSaved (image : string)
| MsgFailed (id : string) (reason : string)
| MsgUpdated
| MsgNoChanges
| MsgDone
| MsgFatal (reason : string).

Inductive level := LLog | LWarn | LError.

(** What is written to a file: image bytes, or the catalog as
    [JSON.stringify(deals, null, 2) + "\n"]. *)
Inductive content :=
| Bytes (data : buffer)
| DealsJson (deals : list Deal.t).

Inductive event :=
| Console (l : level) (m : message)
| EMkdir (path : string)
| EReadFile (path : string)
| EFetch (url : string) (headers : list (string * string))
| EWriteFile (path : string) (c : content)
| ESleep (ms : Z).

(** The platform and the outside world. *)
Record env := {
  (* [new URL(u, base).href]; [None] when the constructor throws *)
  URL_href : string -> option string -> option string;
  (* [new URL(u).hostname] *)
  URL_hostname : string -> option string;
  (* [JSON.parse]; [None] when it throws *)
  JSON_parse : string -> option json;
  (* the number a string, an array or an object converts to, NaN among
     them; the conversion of an object or an array can throw *)
  ToNumber_other : json -> result Double.t;
  cheerio_load : string -> document;
  cwd : string;
  path_join : list string -> string;
  mkdir : string -> result unit;
  (* [JSON.parse(await readFile(path, "utf8"))] read as a list of deals *)
  readDeals : string -> result (list Deal.t);
  fetch : string -> list (string * string) -> result response;
  sharp_metadata : buffer -> option metadata;
  (* [.resize(800, 800, {fit: "cover", position: "attention"}).webp({quality: 82})] *)
  sharp_resize_webp : buffer -> result buffer;
  writeFile : string -> content -> result unit;
}.

(** A computation: the events it performed and how it ended. *)
Definition io (A : Type) : Type := list event * result A.

Definition ret {A} (a : A) : io A := ([], Ok a).
Definition throw {A} (m : string) : io A := ([], Throw m).
Definition emit (e : event) : io unit := ([e], Ok tt).
Definition lift {A} (r : result A) : io A := ([], r).

Definition bind {A B} (m : io A) (f : A -> io B) : io B :=
  match m with
  | (t, Ok a) => let (t', r) := f a in ((t ++ t')%list, r)
  | (t, Throw e) => (t, Throw e)
  end.

Declare Scope io_scope.
Delimit Scope io_scope with io.
Notation "x <- m ;; k" := (bind m (fun x => k))
  (at level 61, m at next level, right associativity) : io_scope.
Notation "m ;;; k" := (bind m (fun _ => k))
  (at level 61, right associativity) : io_scope.

(** [try { m } catch (e) { h(e.message) }] *)
Definition try_catch {A} (m : io A) (h : string -> io A) : io A :=
  match m with
  | (t, Ok a) => (t, Ok a)
  | (t, Throw e) => let (t', r) := h e in ((t ++ t')%list, r)
  end.

(** ** The script *)

Definition UA : string :=
  "Mozilla/5.0 (Windows NT 10.0; Win64; x64) AppleWebKit/537.36 (KHTML, like Gecko) Chrome/123.0 Safari/537.36".

Definition quote : string := String (ascii_of_nat 34) EmptyString.

(** [/fls-.*\.amazon\.com\/.*batch/i.test(u) || /pixel/i.test(u)] *)
Definition isTrackingPixelUrl (u : string) : bool :=
  Regex.test (Regex.lit "fls-" ++ [Regex.AnyStar] ++ Regex.lit ".amazon.com/"
              ++ [Regex.AnyStar] ++ Regex.lit "batch") u
  || Regex.test (Regex.lit "pixel") u.

(** [/^data:/i.test(u)] *)
Definition isDataUrl (u : string) : bool :=
  Regex.test_anchored (Regex.lit "data:") u.

(** [/m\.media-amazon\.com\/images\//i.test(u)] *)
Definition isAmazonMediaUrl (u : string) : bool :=
  Regex.test (Regex.lit "m.media-amazon.com/images/") u.

Definition of_nullable (u : option string) : json :=
  match u with Some s => JStr s | None => JNull end.

Section Script.

Variable E : env.

(** [absolutize(url, base)]. A truthy value that is not a string has no
    [startsWith] method: the call throws inside the [try], and the [catch]
    returns [null]. *)
Definition absolutize (url : json) (base : option string) : option string :=
  if negb (truthy url) then None
  else match url with
       | JStr s =>
           if Str.startsWith s "//" then Some ("https:" ++ s)
           else if Str.startsWith s "http://" || Str.startsWith s "https://" then Some s
           else URL_href E s base
       | _ => None
       end.

(** [/(^|\.)amazon\./i.test(hostname)] *)
Definition isAmazonUrl (u : string) : bool :=
  match URL_hostname E u with
  | Some hostname =>
      Regex.test_anchored (Regex.lit "amazon.") hostname
      || Regex.test (Regex.lit ".amazon.") hostname
  | None => false
  end.

(** *** Pickers *)

Definition og_selectors : list (string * string) :=
  [("property", "og:image"); ("property", "og:image:url"); ("name", "og:image");
   ("name", "twitter:image"); ("name", "twitter:image:src")].

Fixpoint pickOgImage_from (doc : document) (sels : list (string * string)) : json :=
  match sels with
  | [] => JNull
  | (name, value) :: rest =>
      match attr_truthy (select_tag_attr doc "meta" name value) "content" with
      | Some v => JStr v
      | None => pickOgImage_from doc rest
      end
  end.

Definition pickOgImage (doc : document) : json := pickOgImage_from doc og_selectors.

(** The inner [pull] of [pickFromLdJson]. *)
Definition pull (obj : json) : json :=
  if negb (truthy obj) then JNull
  else match get_prop obj "image" with
       | Some (JStr s) => JStr s
       | Some (JArr (first :: _)) => first
       | _ =>
           match get_prop obj "offers" with
           | Some (JObj offers) =>
               match assoc "image" offers with
               | Some (JStr s) => JStr s
               | _ => JNull
               end
           | _ => JNull
           end
       end.

Fixpoint pull_first (items : list json) : json :=
  match items with
  | [] => JNull
  | item :: rest => let found := pull item in
                    if truthy found then found else pull_first rest
  end.

(** One iteration of the loop of [pickFromLdJson]: the value it returns, or
    [JNull] when the loop goes on to the next script. *)
Definition pickFromLdJson_block (el : node) : json :=
  let txt := contents_text el in
  if negb (Str.truthy txt) then JNull
  else match JSON_parse E txt with
       | None => JNull
       | Some data =>
           let found := pull data in
           if truthy found then found
           else match data with
                | JArr items => pull_first items
                | _ => JNull
                end
       end.

Fixpoint pickFromLdJson_from (scripts : list node) : json :=
  match scripts with
  | [] => JNull
  | el :: rest => let found := pickFromLdJson_block el in
                  if truthy found then found else pickFromLdJson_from rest
  end.

Definition pickFromLdJson (doc : document) : json :=
  pickFromLdJson_from (select_tag_attr_ci doc "script" "type" "application/ld+json").

(** [JSON.parse] of the attribute, every [&quot;] replaced by a double quote. *)
Definition parse_dynamic_image (dyn : string) : option json :=
  JSON_parse E (Str.replaceAll "&quot;" quote dyn).

(** What one [img] element pushes onto [candidates]. *)
Definition img_candidates (el : node) : list string :=
  let sel := [el] in
  (match attr_truthy sel "src" with Some src => [src] | None => [] end)
  ++ (match attr_truthy sel "srcset" with
      | Some srcset =>
          filter Str.truthy
            (map (fun s => hd "" (Str.split " " (Str.trim s))) (Str.split "," srcset))
      | None => []
      end)
  ++ (match attr_truthy sel "data-a-dynamic-image" with
      | Some dyn =>
          match parse_dynamic_image dyn with
          | Some json => match Object_keys json with Some ks => ks | None => [] end
          | None => []
          end
      | None => []
      end).

Definition raw_candidates (doc : document) : list string :=
  flat_map img_candidates (select_img_src_srcset doc).

(** The predicate of the [filter] in [pickFirstLargeImg]. *)
Definition usable (u : option string) : bool :=
  match u with
  | Some s => Str.truthy s && negb (isTrackingPixelUrl s) && negb (isDataUrl s)
  | None => false
  end.

Definition large_candidates (doc : document) (baseUrl : option string)
  : list (option string) :=
  filter usable (map (fun u => absolutize (JStr u) baseUrl) (raw_candidates doc)).

Definition pickFirstLargeImg (doc : document) (baseUrl : option string) : json :=
  let candidates := large_candidates doc baseUrl in
  let prefer :=
    find (fun u => match u with Some s => isAmazonMediaUrl s | None => false end)
         candidates in
  match prefer with
  | Some p => of_nullable p
  | None => JNull
  end -||- of_nullable (hd None candidates) -||- JNull.

(** [ToNumber], as [*] applies it to its operands, the left one first. The
    operands are of the form [v || 0]: a falsy [v], [undefined] and [null]
    among them, was replaced by [0] and is not converted. *)
Definition ToNumber (v : json) : result Double.t :=
  match v with
  | JNull => Ok Double.zero
  | JBool b => Ok (if b then Double.of_Z 1 else Double.zero)
  | JNum x => Ok x
  | other => ToNumber_other E other
  end.

(** [(w || 0) * (h || 0)], where [[w, h]] is the size when it is an array
    and [[0, 0]] when it is not. *)
Definition area_of (size : json) : result Double.t :=
  let (w, h) := match size with
                | JArr items => (nth 0 items JNull, nth 1 items JNull)
                | _ => (JNum Double.zero, JNum Double.zero)
                end in
  match ToNumber (w -||- JNum Double.zero) with
  | Throw e => Throw e
  | Ok x =>
      match ToNumber (h -||- JNum Double.zero) with
      | Throw e => Throw e
      | Ok y => Ok (Double.mul x y)
      end
  end.

(** The [for] loop over [Object.entries(json)], with its two variables;
    [area > bestArea] is [bestArea < area]. *)
Fixpoint largest_from (entries : list (string * json)) (best : option string)
         (bestArea : Double.t) : result (option string) :=
  match entries with
  | [] => Ok best
  | (url, size) :: rest =>
      match area_of size with
      | Throw e => Throw e
      | Ok area =>
          if Double.ltb bestArea area then largest_from rest (Some url) area
          else largest_from rest best bestArea
      end
  end.

(** The [data-a-dynamic-image] branch of [tryEl]. *)
Definition tryEl_dynamic (dyn : string) : json :=
  match parse_dynamic_image dyn with
  | Some json =>
      match Object_entries json with
      | Some entries =>
          match largest_from entries None Double.zero with
          | Ok (Some best) => if Str.truthy best then JStr best else JNull
          | Ok None | Throw _ => JNull
          end
      | None => JNull
      end
  | None => JNull
  end.

Definition tryEl (el : list node) : json :=
  match el with
  | [] => JNull
  | _ =>
      match attr_truthy el "data-old-hires" with
      | Some old => JStr old
      | None =>
          match attr_truthy el "src" with
          | Some src => JStr src
          | None =>
              match attr_truthy el "data-a-dynamic-image" with
              | Some dyn => tryEl_dynamic dyn
              | None => JNull
              end
          end
      end
  end.

Definition pickAmazonImage (doc : document) : json :=
  let pick := tryEl (select_id doc "landingImage") in
  if truthy pick then pick
  else
    let pick := tryEl (select_id_descendants doc "imgTagWrapperId" "img") in
    if truthy pick then pick
    else pickFirstLargeImg doc None.

(** *** HTTP *)

Local Open Scope io_scope.

Definition do_fetch (url : string) (headers : list (string * string)) : io response :=
  emit (EFetch url headers) ;;; lift (fetch E url headers).

(** The headers of a page request. *)
Definition page_headers : list (string * string) :=
  [("User-Agent", UA);
   ("Accept", "text/html,application/xhtml+xml,application/xml;q=0.9,image/avif,image/webp,*/*;q=0.8");
   ("Accept-Language", "en-US,en;q=0.9");
   ("Cache-Control", "no-cache");
   ("Pragma", "no-cache")].

(** The headers of an image request; [Referer] only when it is truthy. *)
Definition image_headers (referer : string) : list (string * string) :=
  [("User-Agent", UA);
   ("Accept", "image/avif,image/webp,image/*,*/*;q=0.8")]
  ++ (if Str.truthy referer then [("Referer", referer)] else []).

Definition getHtml (url : string) : io string :=
  res <- do_fetch url page_headers ;;
  if negb (ok res) then throw ("GET " ++ url ++ " -> " ++ Str.of_Z (status res))
  else lift (text res).

Definition getBuffer (url referer : string) : io buffer :=
  res <- do_fetch url (image_headers referer) ;;
  if negb (ok res) then throw ("IMG " ++ url ++ " -> " ++ Str.of_Z (status res))
  else lift (arrayBuffer res).

(** *** Main *)

Definition ROOT : string := cwd E.
Definition DEALS_PATH : string := path_join E [ROOT; "src"; "data"; "deals.json"].
Definition PUBLIC_IMG_DIR : string := path_join E [ROOT; "public"; "images"].

Definition ensureDirs : io unit :=
  emit (EMkdir PUBLIC_IMG_DIR) ;;; lift (mkdir E PUBLIC_IMG_DIR).

(** The two [||] chains of [main]. *)
Definition choose_image (doc : document) (url : string) : json :=
  if isAmazonUrl url then
    pickAmazonImage doc -||- pickOgImage doc -||- pickFromLdJson doc
    -||- pickFirstLargeImg doc (Some url)
  else
    pickOgImage doc -||- pickFromLdJson doc -||- pickFirstLargeImg doc (Some url).

(** [meta.width && meta.height && meta.width * meta.height < 10_000] *)
Definition tiny (m : metadata) : bool :=
  match width m, height m with
  | Some w, Some h => negb (w =? 0) && negb (h =? 0) && (w * h <? 10000)
  | _, _ => false
  end.

(** The condition of the guard against 1x1 pixels; [meta] is [None] when
    [metadata()] threw. *)
Definition degenerate (meta : option metadata) : bool :=
  match meta with
  | None => true
  | Some m => tiny m
  end.

(** The body of that guard: the buffer to go on with. *)
Definition try_fallback (doc : document) (url imgUrl : string) (buf : buffer) : io buffer :=
  let fallback := pickFirstLargeImg doc (Some url) in
  match absolutize fallback (Some url) with
  | Some absFallback =>
      if Str.truthy absFallback && negb (String.eqb absFallback imgUrl)
         && negb (isTrackingPixelUrl absFallback)
      then emit (Console LLog (MsgTinyFallback absFallback)) ;;;
           getBuffer absFallback url
      else ret buf
  | None => ret buf
  end.

(** How the [try] block of one iteration ends when nothing throws. *)
Inductive attempt :=
| Skipped                (* [continue] after the warning *)
| Saved (d' : Deal.t).   (* the deal as mutated; [changed = true] *)

(** The [try] block, for a deal whose [id] and [url] are present. *)
Definition try_block (d : Deal.t) (id url : string) : io attempt :=
  emit (Console LLog (MsgFetch id url)) ;;;
  html <- getHtml url ;;
  let doc := cheerio_load E html in
  let imgUrl := absolutize (choose_image doc url) (Some url) in
  match imgUrl with
  | None => emit (Console LWarn (MsgNoUsableImage id)) ;;; ret Skipped
  | Some imgUrl =>
      if negb (Str.truthy imgUrl) || isTrackingPixelUrl imgUrl
      then emit (Console LWarn (MsgNoUsableImage id)) ;;; ret Skipped
      else
        emit (Console LLog (MsgCandidate imgUrl)) ;;;
        buf <- getBuffer imgUrl url ;;
        let meta := sharp_metadata E buf in
        buf <- (if degenerate meta then try_fallback doc url imgUrl buf else ret buf) ;;
        let outName := id ++ ".webp" in
        let outPath := path_join E [PUBLIC_IMG_DIR; outName] in
        webp <- lift (sharp_resize_webp E buf) ;;
        emit (EWriteFile outPath (Bytes webp)) ;;;
        lift (writeFile E outPath (Bytes webp)) ;;;
        let d' := {| Deal.id := Deal.id d;
                     Deal.url := Deal.url d;
                     Deal.image := Some ("/images/" ++ outName);
                     Deal.imageAlt := Deal.or_else (Deal.imageAlt d) (Deal.title d);
                     Deal.title := Deal.title d |} in
        emit (Console LLog (MsgSaved ("/images/" ++ outName))) ;;;
        emit (ESleep 400) ;;;
        ret (Saved d')
  end.

(** One iteration of the [for] loop: its events, the deal afterwards, and
    whether it set [changed]. *)
Definition iteration (d : Deal.t) : list event * (Deal.t * bool) :=
  if Deal.present (Deal.image d) then ([], (d, false))
  else
    match Deal.url d, Deal.id d with
    | Some url, Some id =>
        if negb (Str.truthy url) || negb (Str.truthy id) then ([], (d, false))
        else
          match try_block d id url with
          | (t, Ok (Saved d')) => (t, (d', true))
          | (t, Ok Skipped) => (t, (d, false))
          | (t, Throw e) => ((t ++ [Console LError (MsgFailed id e)])%list, (d, false))
          end
    | _, _ => ([], (d, false))
    end.

(** The [for] loop, from a given value of [changed]. *)
Fixpoint for_deals (deals : list Deal.t) (changed : bool)
  : list event * (list Deal.t * bool) :=
  match deals with
  | [] => ([], ([], changed))
  | d :: rest =>
      let '(t, (d', set)) := iteration d in
      let '(t', (rest', changed')) := for_deals rest (if set then true else changed) in
      ((t ++ t')%list, (d' :: rest', changed'))
  end.

(** [main]: the catalog in memory when it returns. *)
Definition main : io (list Deal.t) :=
  emit (Console LLog MsgStarting) ;;;
  ensureDirs ;;;
  emit (EReadFile DEALS_PATH) ;;;
  deals <- lift (readDeals E DEALS_PATH) ;;
  let '(t, (deals', changed)) := for_deals deals false in
  (t, Ok tt) ;;;
  (if changed
   then emit (EWriteFile DEALS_PATH (DealsJson deals')) ;;;
        lift (writeFile E DEALS_PATH (DealsJson deals')) ;;;
        emit (Console LLog MsgUpdated)
   else emit (Console LLog MsgNoChanges)) ;;;
  emit (Console LLog MsgDone) ;;;
  ret deals'.

(** [main().catch(...)]: the events of a run and the exit code. *)
Definition run : list event * Z :=
  match main with
  | (t, Ok _) => (t, 0)
  | (t, Throw e) => ((t ++ [Console LError (MsgFatal e)])%list, 1)
  end.

End Script.

(** ** Notions the properties are stated with *)

(** *** Absolute and relative URL strings

    The URL parser first removes leading and trailing C0 controls and
    spaces and every tab and newline; the input is absolute when what is
    left starts with a scheme, that is a letter, then letters, digits,
    [+], [-] or [.], then a colon. *)

Definition is_alpha (c : ascii) : bool :=
  let n := nat_of_ascii (Str.lower c) in (Nat.leb 97 n && Nat.leb n 122)%bool.

Definition is_scheme_char (c : ascii) : bool :=
  let n := nat_of_ascii c in
  (is_alpha c || (Nat.leb 48 n && Nat.leb n 57)
   || Nat.eqb n 43 || Nat.eqb n 45 || Nat.eqb n 46)%bool.

Fixpoint scheme_rest (s : string) : bool :=
  match s with
  | EmptyString => false
  | String c r =>
      if Ascii.eqb c ":" then true
      else if is_scheme_char c then scheme_rest r else false
  end.

Definition has_scheme (s : string) : bool :=
  match s with
  | EmptyString => false
  | String c r => is_alpha c && scheme_rest r
  end.

Definition is_c0_or_space (c : ascii) : bool := Nat.leb (nat_of_ascii c) 32.

Definition is_tab_or_newline (c : ascii) : bool :=
  let n := nat_of_ascii c in (Nat.eqb n 9 || Nat.eqb n 10 || Nat.eqb n 13)%bool.

Fixpoint strip_start (s : string) : string :=
  match s with
  | EmptyString => EmptyString
  | String c r => if is_c0_or_space c then strip_start r else s
  end.

Fixpoint strip_end (s : string) : string :=
  match s with
  | EmptyString => EmptyString
  | String c r =>
      match strip_end r with
      | EmptyString => if is_c0_or_space c then EmptyString else String c EmptyString
      | r' => String c r'
      end
  end.

Fixpoint remove_tab_newline (s : string) : string :=
  match s with
  | EmptyString => EmptyString
  | String c r =>
      if is_tab_or_newline c then remove_tab_newline r
      else String c (remove_tab_newline r)
  end.

Definition url_clean (s : string) : string :=
  remove_tab_newline (strip_end (strip_start s)).

(** A candidate that is neither protocol-relative nor absolute. *)
Definition is_relative (u : string) : bool :=
  negb (Str.startsWith u "//") && negb (has_scheme (url_clean u)).

(** Three facts about the platform's URL parser that the properties below
    assume where they need them. The [href] of a parsed URL starts with its
    scheme. *)
Definition href_has_scheme (E : env) : Prop :=
  forall u base h, URL_href E u base = Some h -> has_scheme h = true.

(** Without a base, only an input with a scheme parses. *)
Definition href_needs_scheme_without_base (E : env) : Prop :=
  forall u h, URL_href E u None = Some h -> has_scheme (url_clean u) = true.

(** An [href] parses to itself against the base it was resolved against:
    that base was accepted, and an [href] is absolute. Nothing is assumed
    of another base, which the parser may reject whatever the input. *)
Definition href_is_stable (E : env) : Prop :=
  forall u base h, URL_href E u base = Some h -> URL_href E h base = Some h.

(** *** Reading a trace *)

Definition is_image_request (headers : list (string * string)) : bool :=
  match assoc "Accept" headers with
  | Some a => String.eqb a "image/avif,image/webp,image/*,*/*;q=0.8"
  | None => false
  end.

(** The URLs handed to [getBuffer], in order. *)
Fixpoint downloads (t : list event) : list string :=
  match t with
  | [] => []
  | EFetch u h :: r => if is_image_request h then u :: downloads r else downloads r
  | _ :: r => downloads r
  end.

(** The URLs handed to [getHtml], in order. *)
Fixpoint page_fetches (t : list event) : list string :=
  match t with
  | [] => []
  | EFetch u h :: r => if is_image_request h then page_fetches r else u :: page_fetches r
  | _ :: r => page_fetches r
  end.

(** The catalogs written, in order. *)
Fixpoint catalog_writes (t : list event) : list (list Deal.t) :=
  match t with
  | [] => []
  | EWriteFile _ (DealsJson ds) :: r => ds :: catalog_writes r
  | _ :: r => catalog_writes r
  end.

Definition is_console (e : event) : bool :=
  match e with Console _ _ => true | _ => false end.

(** *** The two candidates of one record *)

(** The candidate [main] goes on with after the warning test: the chosen
    value, absolutized, unless it is empty or a tracking pixel. *)
Definition candidate (E : env) (doc : document) (url : string) : option string :=
  match absolutize E (choose_image E doc url) (Some url) with
  | Some imgUrl =>
      if negb (Str.truthy imgUrl) || isTrackingPixelUrl imgUrl then None else Some imgUrl
  | None => None
  end.

(** The alternate the guard against tiny images downloads, if any. *)
Definition fallback_candidate (E : env) (doc : document) (url imgUrl : string)
  : option string :=
  match absolutize E (pickFirstLargeImg E doc (Some url)) (Some url) with
  | Some absFallback =>
      if Str.truthy absFallback && negb (String.eqb absFallback imgUrl)
         && negb (isTrackingPixelUrl absFallback)
      then Some absFallback else None
  | None => None
  end.

(** The area an entry of a size-keyed map competes with: NaN never beats
    the best area so far, no more than 0 does. *)
Definition score (E : env) (size : json) : Double.t :=
  match area_of E size with
  | Ok a => if Double.is_nan a then Double.zero else a
  | Throw _ => Double.zero
  end.

(** [x || 0] on a number. *)
Definition or_zero (x : Double.t) : Double.t :=
  if Double.truthy x then x else Double.zero.

(** The mantissa and the exponent of the double of a positive integer
    below [2^53]: the integer shifted left until it has 53 digits, and the
    opposite of the shift. *)
Definition mantissa (p : positive) : positive :=
  match (53 - Zpos (digits2_pos p))%Z with
  | Zpos d => Pos.iter xO p d
  | _ => p
  end.

Definition exponent (p : positive) : Z := Zpos (digits2_pos p) - 53.

(** What a size-keyed map is meant to hold for a URL: a width and a height
    in whole pixels, or something else. *)
Inductive dimensions :=
| Pixels (w h : Z)
| Malformed (v : json).

(** The value of the map, as the parser of JSON reads it. *)
Definition size_json (d : dimensions) : json :=
  match d with
  | Pixels w h => JArr [JNum (Double.of_Z w); JNum (Double.of_Z h)]
  | Malformed v => v
  end.

Definition sized_entries (sizes : list (string * dimensions)) : list (string * json) :=
  map (fun e => (fst e, size_json (snd e))) sizes.

(** The area in the words of the specification: width x height, and 0 for
    what is malformed. *)
Definition pixels (d : dimensions) : Z :=
  match d with
  | Pixels w h => w * h
  | Malformed _ => 0
  end.

(** The sizes whose area a double holds exactly, and the malformed values
    that are not arrays. *)
Definition whole (d : dimensions) : Prop :=
  match d with
  | Pixels w h => 0 <= w < 2 ^ 53 /\ 0 <= h < 2 ^ 53 /\ w * h < 2 ^ 53
  | Malformed v => forall items, v <> JArr items
  end.

(** The entries whose area can be computed: those of a map of URLs to
    pairs of numbers are, and so is any value that is not an array. *)
Definition computable (E : env) (size : json) : Prop :=
  exists a, area_of E size = Ok a.


(** *** What a pattern matches

    The strings a pattern of the script denotes, independently of the
    matcher: a literal stands for its character in either case, [.*] for
    any run of characters without a line terminator. *)
Fixpoint denotes (p : list Regex.item) (x : list ascii) : Prop :=
  match p with
  | [] => x = []
  | Regex.Lit c :: p' =>
      exists c' x', x = c' :: x' /\ Str.eq_ci c c' = true /\ denotes p' x'
  | Regex.AnyStar :: p' =>
      exists m x', x = (m ++ x')%list
                   /\ Forall (fun c => Str.is_line_terminator c = false) m
                   /\ denotes p' x'
  end.

(** Two strings that differ by the case of their ASCII letters only. *)
Definition same_ci (a b : string) : Prop :=
  map Str.lower (Str.chars a) = map Str.lower (Str.chars b).

(** A string without line terminator. *)
Definition single_line (s : string) : Prop :=
  Forall (fun c => Str.is_line_terminator c = false) (Str.chars s).

(** *** More readings of a trace *)

(** The HTTP requests, in order, each with its headers. *)
Fixpoint requests (t : list event) : list (string * list (string * string)) :=
  match t with
  | [] => []
  | EFetch u h :: r => (u, h) :: requests r
  | _ :: r => requests r
  end.

(** The pauses, in order. *)
Fixpoint sleeps (t : list event) : list Z :=
  match t with
  | [] => []
  | ESleep ms :: r => ms :: sleeps r
  | _ :: r => sleeps r
  end.

(** The image files written, in order. *)
Fixpoint image_writes (t : list event) : list (string * buffer) :=
  match t with
  | [] => []
  | EWriteFile p (Bytes data) :: r => (p, data) :: image_writes r
  | _ :: r => image_writes r
  end.

(** The page a deal is fetched from, when the loop does not pass it over. *)
Definition pending (d : Deal.t) : option string :=
  if Deal.present (Deal.image d) then None
  else match Deal.url d, Deal.id d with
       | Some url, Some id =>
           if Str.truthy url && Str.truthy id then Some url else None
       | _, _ => None
       end.

(** *** The try block, outcome by outcome

    The events and the result of [try_block] for each way it can go, read
    off the results of the requests; [try_block_by_cases] below proves it
    equal to the block. *)
Definition saved (d : Deal.t) (id : string) : Deal.t :=
  {| Deal.id := Deal.id d;
     Deal.url := Deal.url d;
     Deal.image := Some ("/images/" ++ id ++ ".webp");
     Deal.imageAlt := Deal.or_else (Deal.imageAlt d) (Deal.title d);
     Deal.title := Deal.title d |}.

Definition finish (E : env) (d : Deal.t) (id : string) (pre : list event) (buf : buffer)
  : io attempt :=
  let outPath := path_join E [PUBLIC_IMG_DIR E; id ++ ".webp"] in
  match sharp_resize_webp E buf with
  | Throw e => (pre, Throw e)
  | Ok webp =>
      match writeFile E outPath (Bytes webp) with
      | Throw e => ((pre ++ [EWriteFile outPath (Bytes webp)])%list, Throw e)
      | Ok _ =>
          ((pre ++ [EWriteFile outPath (Bytes webp);
                    Console LLog (MsgSaved ("/images/" ++ id ++ ".webp"));
                    ESleep 400])%list,
           Ok (Saved (saved d id)))
      end
  end.

Definition try_block_cases (E : env) (d : Deal.t) (id url : string) : io attempt :=
  let fetched := [Console LLog (MsgFetch id url); EFetch url page_headers] in
  match snd (getHtml E url) with
  | Throw e => (fetched, Throw e)
  | Ok html =>
      let doc := cheerio_load E html in
      match candidate E doc url with
      | None => ((fetched ++ [Console LWarn (MsgNoUsableImage id)])%list, Ok Skipped)
      | Some imgUrl =>
          let asked :=
            (fetched ++ [Console LLog (MsgCandidate imgUrl);
                         EFetch imgUrl (image_headers url)])%list in
          match snd (getBuffer E imgUrl url) with
          | Throw e => (asked, Throw e)
          | Ok buf =>
              match (if degenerate (sharp_metadata E buf)
                     then fallback_candidate E doc url imgUrl else None) with
              | None => finish E d id asked buf
              | Some a =>
                  let again :=
                    (asked ++ [Console LLog (MsgTinyFallback a);
                               EFetch a (image_headers url)])%list in
                  match snd (getBuffer E a url) with
                  | Throw e => (again, Throw e)
                  | Ok buf' => finish E d id again buf'
                  end
              end
          end
      end
  end.

(** *** Meta tags *)

(** A selector of [pickOgImage] that yields nothing on a page: no element
    matches, or the first that does has no content or an empty one. *)
Definition no_content (doc : document) (sel : string * string) : Prop :=
  attr_truthy (select_tag_attr doc "meta" (fst sel) (snd sel)) "content" = None.

(** *** Structured-data blocks *)

(** A script whose text is not empty and parses. *)
Definition usable_block (E : env) (el : node) : bool :=
  Str.truthy (contents_text el)
  && match JSON_parse E (contents_text el) with Some _ => true | None => false end.

(** Where [pull] finds the value it answers for an object. *)
Inductive pulled_from (obj v : json) : Prop :=
| pulled_image_string (s : string) :
    get_prop obj "image" = Some (JStr s) -> v = JStr s -> pulled_from obj v
| pulled_image_first (rest : list json) :
    get_prop obj "image" = Some (JArr (v :: rest)) -> pulled_from obj v
| pulled_offers_image (offers : list (string * json)) (s : string) :
    get_prop obj "offers" = Some (JObj offers) ->
    assoc "image" offers = Some (JStr s) -> v = JStr s -> pulled_from obj v.

(** *** Survivors of the generic scan *)

(** A surviving candidate on the media CDN of the marketplace. *)
Definition on_media_cdn (u : option string) : bool :=
  match u with Some s => isAmazonMediaUrl s | None => false end.

(** ** A small concrete environment

    A stand-in for the platform, used to run the script on examples. Its
    URL parser covers [http] and [https] URLs with a plain host name,
    other schemes kept as written, and path-absolute and relative
    references against an [http(s)] base; its JSON and HTML parsers are
    tables of the texts the examples use. *)

Module Model.

Definition host_char (c : ascii) : bool :=
  let n := nat_of_ascii c in
  (is_alpha c || (Nat.leb 48 n && Nat.leb n 57) || Nat.eqb n 45 || Nat.eqb n 46)%bool.

Definition drop (n : nat) (s : string) : string :=
  String.substring n (String.length s - n) s.

(** The part after [http://] or [https://], when the input starts so. *)
Definition after_http (u : string) : option (string * string) :=
  if Str.startsWith u "https://" then Some ("https://", drop 8 u)
  else if Str.startsWith u "http://" then Some ("http://", drop 7 u)
  else None.

Definition host_of (rest : string) : string := hd "" (Str.split "/" rest).

Definition valid_host (h : string) : bool :=
  Str.truthy h && forallb host_char (Str.chars h).

Definition lower_string (s : string) : string :=
  string_of_list_ascii (map Str.lower (Str.chars s)).

(** The scheme of an input is read ignoring case. *)
Fixpoint lower_scheme (u : string) : string :=
  match u with
  | EmptyString => EmptyString
  | String c r => if Ascii.eqb c ":" then u else String (Str.lower c) (lower_scheme r)
  end.

(** Scheme and host of an [http(s)] URL. *)
Definition origin_of (u : string) : option string :=
  match after_http (lower_scheme (url_clean u)) with
  | Some (scheme, rest) =>
      let h := host_of rest in
      if valid_host h then Some (scheme ++ lower_string h) else None
  | None => None
  end.

(** The path of an [http(s)] URL without its last segment. *)
Definition directory_of (u : string) : string :=
  match after_http (lower_scheme (url_clean u)) with
  | Some (_, rest) =>
      match Str.split "/" rest with
      | _ :: segments => String.concat "/" (removelast segments)
      | [] => ""
      end
  | None => ""
  end.

(** An input that has a scheme. *)
Definition parse_absolute (u : string) : option string :=
  let u := lower_scheme u in
  match after_http u with
  | Some (scheme, rest) =>
      let h := host_of rest in
      if valid_host h
      then Some (scheme ++ lower_string h
                 ++ (if Str.truthy (drop (String.length h) rest)
                     then drop (String.length h) rest else "/"))
      else None
  | None =>
      if Str.startsWith u "http:" || Str.startsWith u "https:" then None
      else Some u
  end.

Definition parse (u : string) (base : option string) : option string :=
  let u := url_clean u in
  if has_scheme u then parse_absolute u
  else
    match base with
    | None => None
    | Some b =>
        match origin_of b with
        | None => None
        | Some o =>
            if Str.startsWith u "//"
            then parse_absolute ((if Str.startsWith o "https://" then "https:" else "http:") ++ u)
            else if Str.startsWith u "/" then Some (o ++ u)
            else Some (o ++ "/" ++
                       (if Str.truthy (directory_of b) then directory_of b ++ "/" else "")
                       ++ u)
        end
    end.

(** Only an [href] that parses back to itself is returned. *)
Definition href (u : string) (base : option string) : option string :=
  match parse u base with
  | Some h =>
      if has_scheme h
         && match parse h None with Some h' => String.eqb h' h | None => false end
      then Some h else None
  | None => None
  end.

Definition hostname (u : string) : option string :=
  match after_http (lower_scheme (url_clean u)) with
  | Some (_, rest) =>
      let h := host_of rest in
      if valid_host h then Some (lower_string h) else None
  | None => if has_scheme (url_clean u) then Some "" else None
  end.

Definition buffer_eqb (a b : buffer) : bool :=
  if list_eq_dec Byte.byte_eq_dec a b then true else false.

Fixpoint lookup_buffer {A} (k : buffer) (l : list (buffer * A)) : option A :=
  match l with
  | [] => None
  | (k', v) :: r => if buffer_eqb k k' then Some v else lookup_buffer k r
  end.

(** The world of an example. *)
Record world := {
  jsons : list (string * json);          (* texts [JSON.parse] accepts *)
  pages : list (string * document);      (* HTML texts and their trees *)
  web : list (string * response);        (* what [fetch] resolves to, by URL *)
  images : list (buffer * metadata);     (* what [sharp] can decode *)
  catalog : list Deal.t;                 (* [deals.json] *)
}.

Definition make (w : world) : env := {|
  URL_href := href;
  URL_hostname := hostname;
  JSON_parse := fun txt => assoc txt (jsons w);
  ToNumber_other := fun _ => Ok S754_nan;
  cheerio_load := fun html => match assoc html (pages w) with Some d => d | None => [] end;
  cwd := "/site";
  path_join := String.concat "/";
  mkdir := fun _ => Ok tt;
  readDeals := fun _ => Ok (catalog w);
  fetch := fun url _ => match assoc url (web w) with
                        | Some r => Ok r
                        | None => Throw "fetch failed"
                        end;
  sharp_metadata := fun buf => lookup_buffer buf (images w);
  sharp_resize_webp := fun buf => match lookup_buffer buf (images w) with
                                  | Some _ => Ok buf
                                  | None => Throw "Input buffer contains unsupported image format"
                                  end;
  writeFile := fun _ _ => Ok tt;
|}.

Definition page (body : string) : response :=
  {| status := 200; text := Ok body; arrayBuffer := Throw "not an image" |}.

Definition picture (data : buffer) : response :=
  {| status := 200; text := Throw "not a page"; arrayBuffer := Ok data |}.

Definition not_found : response :=
  {| status := 404; text := Ok ""; arrayBuffer := Ok [] |}.

Definition deal (id url : string) (title : string) : Deal.t :=
  {| Deal.id := Some id; Deal.url := Some url; Deal.image := None;
     Deal.imageAlt := None; Deal.title := Some title |}.

Definition meta_tag (property content : string) : node :=
  Element "meta" [("property", property); ("content", content)] [].

Definition img (src : string) : node := Element "img" [("src", src)] [].

Definition html (head body : list node) : document :=
  [Element "html" [] [Element "head" [] head; Element "body" [] body]].

(** A shop page with an [og:image] and one larger picture in its body; the
    argument is what [sharp] reads from the [og:image] file. *)
Definition shop (m : list (buffer * metadata)) : world := {|
  jsons := [];
  pages := [("<widget>", html [meta_tag "og:image" "/img/widget.jpg"] [img "/img/big.jpg"])];
  web := [("https://example.com/p", page "<widget>");
          ("https://example.com/img/widget.jpg", picture [Byte.x01]);
          ("https://example.com/img/big.jpg", picture [Byte.x02])];
  images := (m ++ [([Byte.x02], {| width := Some 800; height := Some 800 |})])%list;
  catalog := [deal "x1" "https://example.com/p" "Widget"];
|}.

Definition sized (w h : Z) : list (buffer * metadata) :=
  [([Byte.x01], {| width := Some w; height := Some h |})].

(** A product page of the marketplace whose landmark image only carries a
    size-keyed map. *)
Definition packed_attr : string :=
  "{&quot;a&quot;:[100,100],&quot;b&quot;:[400,400],&quot;c&quot;:&quot;not-an-array&quot;}".

Definition num (z : Z) : json := JNum (Double.of_Z z).

Definition packed_map : json :=
  JObj [("a", JArr [num 100; num 100]); ("b", JArr [num 400; num 400]);
        ("c", JStr "not-an-array")].

Definition landmark : document :=
  html [] [Element "img" [("id", "landingImage"); ("data-a-dynamic-image", packed_attr)] []].

Definition marketplace : world := {|
  jsons := [(Str.replaceAll "&quot;" quote packed_attr, packed_map)];
  pages := [("<product>", landmark)];
  web := [("https://www.amazon.com/dp/B0", page "<product>")];
  images := [];
  catalog := [deal "b0" "https://www.amazon.com/dp/B0" "Product"];
|}.

(** A page whose only image is an advertising beacon. *)
Definition tracked : world := {|
  jsons := [];
  pages := [("<ad>", html [meta_tag "og:image" "https://ads.example.com/pixel.gif"] [])];
  web := [("https://example.com/p", page "<ad>")];
  images := [];
  catalog := [deal "x1" "https://example.com/p" "Widget"];
|}.

(** A catalog of two deals: the page of the first is gone, the second is
    the shop page. *)
Definition two_deals : world := {|
  jsons := [];
  pages := pages (shop (sized 200 200));
  web := (("https://example.com/gone", not_found) :: web (shop (sized 200 200)))%list;
  images := images (shop (sized 200 200));
  catalog := [deal "x0" "https://example.com/gone" "Gone";
              deal "x1" "https://example.com/p" "Widget"];
|}.

(** The second deal once it has its image. *)
Definition enriched : Deal.t :=
  {| Deal.id := Some "x1"; Deal.url := Some "https://example.com/p";
     Deal.image := Some "/images/x1.webp"; Deal.imageAlt := Some "Widget";
     Deal.title := Some "Widget" |}.

(** The world of a second run: the catalog holds the enriched deal, and
    nothing is reachable. *)
Definition second_run : world := {|
  jsons := [];
  pages := [];
  web := [];
  images := [];
  catalog := [enriched];
|}.



(** A product page without landmark: one relative picture, one
    protocol-relative picture. *)
Definition plain : document :=
  html [] [img "img/relative.jpg"; img "//cdn.example.com/a.jpg"].

(** A page whose structured data describes its image by an object, and
    whose body holds a picture. *)
Definition described : document :=
  html [Element "script" [("type", "application/ld+json")] [TextNode "<ld>"]]
       [img "/img/big.jpg"].

Definition structured : world := {|
  jsons := [("<ld>", JObj [("image",
                            JArr [JObj [("url", JStr "https://example.com/img/big.jpg")]])])];
  pages := [("<described>", described)];
  web := [("https://example.com/p", page "<described>");
          ("https://example.com/img/big.jpg", picture [Byte.x02])];
  images := [([Byte.x02], {| width := Some 800; height := Some 800 |})];
  catalog := [deal "x1" "https://example.com/p" "Widget"];
|}.

(** A page with a plain picture before a picture of the media CDN. *)
Definition gallery : document :=
  html [] [img "https://example.com/img/first.jpg";
           img "https://m.media-amazon.com/images/I/second.jpg"].

(** A product page whose landmark carries a size map that does not parse,
    and a picture in its body. *)
Definition broken_map : document :=
  html [] [Element "img" [("id", "landingImage"); ("data-a-dynamic-image", "{oops")] [];
           img "https://example.com/img/big.jpg"].

(** The same product page with the map on the image of the wrapper, and
    no landmark. *)
Definition wrapped : document :=
  html [] [Element "div" [("id", "imgTagWrapperId")]
             [Element "img" [("data-a-dynamic-image", packed_attr)] []]].

(** A product page whose map holds two sizes beyond any screen: the
    products, 9007199515875288 and 9007199515875289, are above [2^53] and
    have the same nearest double. *)
Definition oversized_attr : string :=
  "{&quot;a&quot;:[94906266,94906268],&quot;b&quot;:[94906267,94906267]}".

Definition oversized_map : json :=
  JObj [("a", JArr [num 94906266; num 94906268]);
        ("b", JArr [num 94906267; num 94906267])].

Definition oversized : document :=
  html [] [Element "img" [("id", "landingImage");
                          ("data-a-dynamic-image", oversized_attr)] []].

Definition warehouse : world := {|
  jsons := [(Str.replaceAll "&quot;" quote oversized_attr, oversized_map)];
  pages := [("<oversized>", oversized)];
  web := [("https://www.amazon.com/dp/B1", page "<oversized>")];
  images := [];
  catalog := [deal "b1" "https://www.amazon.com/dp/B1" "Product"];
|}.

(** A page whose structured data is announced in capitals. *)
Definition shouted : document :=
  html [Element "script" [("type", "Application/LD+JSON")] [TextNode "<ld>"]] [].

Definition capitals : world := {|
  jsons := [("<ld>", JObj [("image", JStr "https://example.com/img/big.jpg")])];
  pages := [("<shouted>", shouted)];
  web := [("https://example.com/p", page "<shouted>")];
  images := [];
  catalog := [deal "x1" "https://example.com/p" "Widget"];
|}.


End Model.

(** * Properties *)

(** ** The helpers on small inputs *)

Example replaceAll_quot :
  Str.replaceAll "&quot;" "'" "{&quot;a&quot;:[1,2]}" = "{'a':[1,2]}".
Proof. reflexivity. Qed.

Example srcset_entries :
  raw_candidates (Model.make Model.second_run)
    [Element "img" [("src", "a.jpg"); ("srcset", "b.jpg 1x, c.jpg 2x,  ,d.jpg")] []]
  = ["a.jpg"; "b.jpg"; "c.jpg"; "d.jpg"].
Proof. reflexivity. Qed.

Example tracking_pixel_patterns :
  isTrackingPixelUrl "https://fls-na.amazon.com/1/batch/1/OP/x" = true
  /\ isTrackingPixelUrl "https://example.com/Pixel.gif" = true
  /\ isTrackingPixelUrl "https://example.com/img/widget.jpg" = false.
Proof. repeat split. Qed.

Example amazon_hosts :
  isAmazonUrl (Model.make Model.second_run) "https://www.amazon.com/dp/B0" = true
  /\ isAmazonUrl (Model.make Model.second_run) "https://amazon.de/dp/B0" = true
  /\ isAmazonUrl (Model.make Model.second_run) "https://notamazon.com/dp/B0" = false.
Proof. repeat split. Qed.

(** The [type] of a script is compared ignoring case, the [property] of a
    [meta] tag as it is written. *)
Example selectors_and_case :
  pickFromLdJson (Model.make Model.capitals) Model.shouted
  = JStr "https://example.com/img/big.jpg"
  /\ pickOgImage (Model.html [Model.meta_tag "OG:Image" "/img/widget.jpg"] []) = JNull
  /\ pickOgImage (Model.html [Model.meta_tag "og:image" "/img/widget.jpg"] [])
     = JStr "/img/widget.jpg".
Proof. repeat split. Qed.

(** The scenario of the shop page, end to end. *)
Example shop_run :
  snd (main (Model.make (Model.shop (Model.sized 200 200)))) = Ok [Model.enriched]
  /\ downloads (fst (main (Model.make (Model.shop (Model.sized 200 200)))))
     = ["https://example.com/img/widget.jpg"].
Proof. split; vm_compute; reflexivity. Qed.

(** ** Computations and traces *)

Section Traces.

Context {A B : Type}.

Lemma fst_bind (m : io A) (f : A -> io B) :
  fst (bind m f)
  = (fst m ++ match snd m with Ok a => fst (f a) | Throw _ => [] end)%list.
Proof.
  destruct m as [t [a | e]]; simpl.
  - destruct (f a); reflexivity.
  - now rewrite app_nil_r.
Qed.

Lemma snd_bind (m : io A) (f : A -> io B) :
  snd (bind m f) = match snd m with Ok a => snd (f a) | Throw e => Throw e end.
Proof.
  destruct m as [t [a | e]]; simpl; [destruct (f a) |]; reflexivity.
Qed.

End Traces.

Lemma downloads_app (t t' : list event) :
  downloads (t ++ t') = (downloads t ++ downloads t')%list.
Proof.
  induction t as [| e t IH]; simpl; [reflexivity |].
  destruct e; try assumption.
  destruct (is_image_request headers); simpl; now rewrite IH.
Qed.

Lemma page_fetches_app (t t' : list event) :
  page_fetches (t ++ t') = (page_fetches t ++ page_fetches t')%list.
Proof.
  induction t as [| e t IH]; simpl; [reflexivity |].
  destruct e; try assumption.
  destruct (is_image_request headers); simpl; now rewrite IH.
Qed.

Lemma catalog_writes_app (t t' : list event) :
  catalog_writes (t ++ t') = (catalog_writes t ++ catalog_writes t')%list.
Proof.
  induction t as [| e t IH]; simpl; [reflexivity |].
  destruct e; try assumption.
  destruct c; simpl; now rewrite ?IH.
Qed.

Lemma is_image_request_image (referer : string) :
  is_image_request (image_headers referer) = true.
Proof. reflexivity. Qed.

Lemma is_image_request_page : is_image_request page_headers = false.
Proof. reflexivity. Qed.

Section Requests.

Variable E : env.

Lemma getHtml_events (url : string) :
  fst (getHtml E url) = [EFetch url page_headers].
Proof.
  unfold getHtml, do_fetch. rewrite !fst_bind, snd_bind. simpl.
  destruct (fetch E url page_headers) as [res | e]; simpl; [| reflexivity].
  destruct (ok res); reflexivity.
Qed.

Lemma getBuffer_events (url referer : string) :
  fst (getBuffer E url referer) = [EFetch url (image_headers referer)].
Proof.
  unfold getBuffer, do_fetch. rewrite !fst_bind, snd_bind. simpl fst. simpl snd.
  cbv beta iota.
  destruct (fetch E url (image_headers referer)) as [res | e]; simpl; [| reflexivity].
  destruct (ok res); reflexivity.
Qed.

Lemma downloads_getHtml (url : string) : downloads (fst (getHtml E url)) = [].
Proof. rewrite getHtml_events. reflexivity. Qed.

Lemma downloads_getBuffer (url referer : string) :
  downloads (fst (getBuffer E url referer)) = [url].
Proof.
  rewrite getBuffer_events. unfold downloads.
  now rewrite is_image_request_image.
Qed.

(** The guard against tiny images, through [fallback_candidate]. *)
Lemma try_fallback_unfold (doc : document) (url imgUrl : string) (buf : buffer) :
  try_fallback E doc url imgUrl buf
  = match fallback_candidate E doc url imgUrl with
    | Some absFallback =>
        bind (emit (Console LLog (MsgTinyFallback absFallback)))
             (fun _ => getBuffer E absFallback url)
    | None => ret buf
    end.
Proof.
  unfold try_fallback, fallback_candidate.
  destruct (absolutize E (pickFirstLargeImg E doc (Some url)) (Some url)) as [a |];
    [| reflexivity].
  destruct (Str.truthy a && negb (String.eqb a imgUrl) && negb (isTrackingPixelUrl a));
    reflexivity.
Qed.

Lemma downloads_try_fallback (doc : document) (url imgUrl : string) (buf : buffer) :
  downloads (fst (try_fallback E doc url imgUrl buf))
  = match fallback_candidate E doc url imgUrl with Some a => [a] | None => [] end.
Proof.
  rewrite try_fallback_unfold.
  destruct (fallback_candidate E doc url imgUrl) as [a |]; [| reflexivity].
  rewrite fst_bind, downloads_app. simpl. apply downloads_getBuffer.
Qed.

End Requests.

(** ** The try block of one record *)

Section TryBlock.

Variable E : env.

(** The warning test of [main], through [candidate]. *)
Lemma try_block_unfold (d : Deal.t) (id url : string) :
  try_block E d id url
  = bind (emit (Console LLog (MsgFetch id url))) (fun _ =>
    bind (getHtml E url) (fun html =>
      let doc := cheerio_load E html in
      match candidate E doc url with
      | None => bind (emit (Console LWarn (MsgNoUsableImage id))) (fun _ => ret Skipped)
      | Some imgUrl =>
          bind (emit (Console LLog (MsgCandidate imgUrl))) (fun _ =>
          bind (getBuffer E imgUrl url) (fun buf =>
          bind (if degenerate (sharp_metadata E buf)
                then try_fallback E doc url imgUrl buf else ret buf) (fun buf =>
          let outName := id ++ ".webp" in
          let outPath := path_join E [PUBLIC_IMG_DIR E; outName] in
          bind (lift (sharp_resize_webp E buf)) (fun webp =>
          bind (emit (EWriteFile outPath (Bytes webp))) (fun _ =>
          bind (lift (writeFile E outPath (Bytes webp))) (fun _ =>
          bind (emit (Console LLog (MsgSaved ("/images/" ++ outName)))) (fun _ =>
          bind (emit (ESleep 400)) (fun _ =>
          ret (Saved {| Deal.id := Deal.id d;
                        Deal.url := Deal.url d;
                        Deal.image := Some ("/images/" ++ outName);
                        Deal.imageAlt := Deal.or_else (Deal.imageAlt d) (Deal.title d);
                        Deal.title := Deal.title d |})))))))))
      end)).
Proof.
  unfold try_block, candidate.
  destruct (getHtml E url) as [t [html | e]]; [| reflexivity].
  cbv beta iota zeta delta [bind emit].
  destruct (absolutize E (choose_image E (cheerio_load E html) url) (Some url)) as [u |];
    [| reflexivity].
  destruct (negb (Str.truthy u) || isTrackingPixelUrl u); reflexivity.
Qed.

(** What the tail of the block, after the buffer is settled, downloads:
    nothing. *)
Lemma downloads_after_buffer (d : Deal.t) (id : string) (buf : buffer) :
  let outName := id ++ ".webp" in
  let outPath := path_join E [PUBLIC_IMG_DIR E; outName] in
  downloads (fst (
    bind (lift (sharp_resize_webp E buf)) (fun webp =>
    bind (emit (EWriteFile outPath (Bytes webp))) (fun _ =>
    bind (lift (writeFile E outPath (Bytes webp))) (fun _ =>
    bind (emit (Console LLog (MsgSaved ("/images/" ++ outName)))) (fun _ =>
    bind (emit (ESleep 400)) (fun _ =>
    ret (Saved d)))))))) = [].
Proof.
  intros outName outPath.
  destruct (sharp_resize_webp E buf) as [webp | e]; [| reflexivity].
  simpl. destruct (writeFile E outPath (Bytes webp)); reflexivity.
Qed.

(** The image requests of one try block, in order. *)
Lemma downloads_try_block (d : Deal.t) (id url : string) :
  downloads (fst (try_block E d id url))
  = match snd (getHtml E url) with
    | Throw _ => []
    | Ok html =>
        let doc := cheerio_load E html in
        match candidate E doc url with
        | None => []
        | Some imgUrl =>
            imgUrl ::
            match snd (getBuffer E imgUrl url) with
            | Throw _ => []
            | Ok buf =>
                if degenerate (sharp_metadata E buf)
                then match fallback_candidate E doc url imgUrl with
                     | Some a => [a]
                     | None => []
                     end
                else []
            end
        end
    end.
Proof.
  rewrite try_block_unfold.
  rewrite fst_bind, downloads_app. cbn [fst snd emit downloads app].
  rewrite fst_bind, downloads_app, downloads_getHtml. cbn [app].
  destruct (snd (getHtml E url)) as [html | e]; [| reflexivity].
  cbv zeta.
  destruct (candidate E (cheerio_load E html) url) as [imgUrl |]; [| reflexivity].
  rewrite fst_bind, downloads_app. cbn [fst snd emit downloads app].
  rewrite fst_bind, downloads_app, downloads_getBuffer. cbn [app].
  f_equal.
  destruct (snd (getBuffer E imgUrl url)) as [buf | e]; [| reflexivity].
  rewrite fst_bind, downloads_app.
  destruct (degenerate (sharp_metadata E buf)).
  - rewrite downloads_try_fallback.
    destruct (snd (try_fallback E (cheerio_load E html) url imgUrl buf)) as [buf' | e].
    + rewrite downloads_after_buffer. now rewrite app_nil_r.
    + now rewrite app_nil_r.
  - cbn [fst snd ret downloads app]. apply downloads_after_buffer.
Qed.

End TryBlock.

(** ** The guard against tiny images *)


Lemma degenerate_spec (meta : option metadata) :
  degenerate meta = true
  <-> meta = None
      \/ exists m w h, meta = Some m /\ width m = Some w /\ height m = Some h
                       /\ w <> 0 /\ h <> 0 /\ w * h < 10000.
Proof.
  destruct meta as [[[w |] [h |]] |]; simpl; unfold tiny; simpl.
  - rewrite !andb_true_iff, !negb_true_iff, !Z.eqb_neq, Z.ltb_lt. split.
    + intros [[Hw Hh] Hlt]. right. eexists _, w, h. now repeat split.
    + intros [[=] | (m & w' & h' & [= <-] & [= <-] & [= <-] & Hw & Hh & Hlt)].
      now repeat split.
  - split; [discriminate |].
    intros [[=] | (m & w' & h' & [= <-] & _ & [=] & _)].
  - split; [discriminate |].
    intros [[=] | (m & w' & h' & [= <-] & [=] & _)].
  - split; [discriminate |].
    intros [[=] | (m & w' & h' & [= <-] & [=] & _)].
  - split; [now left | reflexivity].
Qed.

(** C1. After the candidate is downloaded: when its metadata cannot be
    decoded, or its decoded dimensions have an area below 10000, the generic
    scan is run once more and its result is downloaded exactly when it
    exists, differs from the candidate and is not a tracking pixel; when
    the decoded area is at least 10000 nothing more is downloaded; and one
    record never causes more than one fallback download. *)
Theorem fallback_at_most_once (E : env) (d : Deal.t) (id url : string) :
  (length (downloads (fst (try_block E d id url))) <= 2)%nat
  /\ forall html imgUrl buf,
       snd (getHtml E url) = Ok html ->
       candidate E (cheerio_load E html) url = Some imgUrl ->
       snd (getBuffer E imgUrl url) = Ok buf ->
       let doc := cheerio_load E html in
       let alternate :=
         match absolutize E (pickFirstLargeImg E doc (Some url)) (Some url) with
         | Some a =>
             if Str.truthy a && negb (String.eqb a imgUrl) && negb (isTrackingPixelUrl a)
             then [a] else []
         | None => []
         end in
       (sharp_metadata E buf = None ->
        downloads (fst (try_block E d id url)) = imgUrl :: alternate)
       /\ (forall m w h,
             sharp_metadata E buf = Some m ->
             width m = Some w -> height m = Some h -> w <> 0 -> h <> 0 ->
             w * h < 10000 ->
             downloads (fst (try_block E d id url)) = imgUrl :: alternate)
       /\ (forall m w h,
             sharp_metadata E buf = Some m ->
             width m = Some w -> height m = Some h ->
             10000 <= w * h ->
             downloads (fst (try_block E d id url)) = [imgUrl]).
Proof.
  split.
  - rewrite downloads_try_block.
    destruct (snd (getHtml E url)) as [html | e]; [| simpl; lia].
    cbv zeta. destruct (candidate E (cheerio_load E html) url) as [imgUrl |];
      [| simpl; lia].
    destruct (snd (getBuffer E imgUrl url)) as [buf | e]; [| simpl; lia].
    destruct (degenerate (sharp_metadata E buf)); [| simpl; lia].
    destruct (fallback_candidate E (cheerio_load E html) url imgUrl); simpl; lia.
  - intros html imgUrl buf Hpage Hcand Hbuf doc alternate. subst doc.
    assert (Halt : alternate
                   = match fallback_candidate E (cheerio_load E html) url imgUrl with
                     | Some a => [a]
                     | None => []
                     end).
    { unfold alternate, fallback_candidate.
      destruct (absolutize E (pickFirstLargeImg E (cheerio_load E html) (Some url))
                  (Some url)) as [a |];
        [| reflexivity].
      now destruct (Str.truthy a && negb (String.eqb a imgUrl)
                    && negb (isTrackingPixelUrl a)). }
    rewrite downloads_try_block, Hpage. cbv zeta. rewrite Hcand, Hbuf.
    repeat split.
    + intros ->. now rewrite Halt.
    + intros m w h -> Hw Hh Hwpos Hhpos Hlt. rewrite Halt.
      replace (degenerate (Some m)) with true; [reflexivity |].
      symmetry. apply degenerate_spec. right. exists m, w, h.
      repeat split; trivial.
    + intros m w h -> Hw Hh Hge.
      replace (degenerate (Some m)) with false; [reflexivity |].
      simpl. unfold tiny. rewrite Hw, Hh.
      destruct (w * h <? 10000) eqn:Hlt; [apply Z.ltb_lt in Hlt; lia |].
      now rewrite andb_false_r.
Qed.

(** On the shop page: a 50x50 and an undecodable [og:image] are followed by
    one download of the body picture, a 200x200 one by none. *)
Lemma fallback_at_most_once_witness :
  downloads (fst (try_block (Model.make (Model.shop (Model.sized 50 50)))
                    (Model.deal "x1" "https://example.com/p" "Widget")
                    "x1" "https://example.com/p"))
  = ["https://example.com/img/widget.jpg"; "https://example.com/img/big.jpg"]
  /\ downloads (fst (try_block (Model.make (Model.shop []))
                       (Model.deal "x1" "https://example.com/p" "Widget")
                       "x1" "https://example.com/p"))
     = ["https://example.com/img/widget.jpg"; "https://example.com/img/big.jpg"]
  /\ downloads (fst (try_block (Model.make (Model.shop (Model.sized 200 200)))
                       (Model.deal "x1" "https://example.com/p" "Widget")
                       "x1" "https://example.com/p"))
     = ["https://example.com/img/widget.jpg"].
Proof.
  split; [| split].
  - refine (proj1 (proj2 (proj2 (fallback_at_most_once
              (Model.make (Model.shop (Model.sized 50 50)))
              (Model.deal "x1" "https://example.com/p" "Widget")
              "x1" "https://example.com/p")
              "<widget>" "https://example.com/img/widget.jpg" [Byte.x01] _ _ _))
              {| width := Some 50; height := Some 50 |} 50 50 _ _ _ _ _ _);
      (reflexivity || discriminate).
  - refine (proj1 (proj2 (fallback_at_most_once
              (Model.make (Model.shop []))
              (Model.deal "x1" "https://example.com/p" "Widget")
              "x1" "https://example.com/p")
              "<widget>" "https://example.com/img/widget.jpg" [Byte.x01] _ _ _) _);
      reflexivity.
  - refine (proj2 (proj2 (proj2 (fallback_at_most_once
              (Model.make (Model.shop (Model.sized 200 200)))
              (Model.deal "x1" "https://example.com/p" "Widget")
              "x1" "https://example.com/p")
              "<widget>" "https://example.com/img/widget.jpg" [Byte.x01] _ _ _))
              {| width := Some 200; height := Some 200 |} 200 200 _ _ _ _);
      (reflexivity || lia).
Defined.

Lemma incomplete_is_not_tiny (m : metadata) :
  width m = None \/ height m = None \/ width m = Some 0 \/ height m = Some 0 ->
  tiny m = false.
Proof.
  unfold tiny. intros [-> | [-> | [-> | ->]]]; simpl.
  - reflexivity.
  - now destruct (width m).
  - now destruct (height m).
  - destruct (width m); [| reflexivity]. simpl. now rewrite andb_false_r.
Qed.

(** C10. Metadata that decodes but has no width or no height, or a zero
    one, does not make the image degenerate, and nothing more is
    downloaded; the image is degenerate exactly when decoding fails or
    when both dimensions are present, non-zero, and of product below
    10000. *)
Theorem incomplete_metadata_is_not_degenerate (E : env) (d : Deal.t) (id url : string) :
  (forall meta,
     degenerate meta = true
     <-> meta = None
         \/ exists m w h, meta = Some m /\ width m = Some w /\ height m = Some h
                          /\ w <> 0 /\ h <> 0 /\ w * h < 10000)
  /\ forall html imgUrl buf m,
       snd (getHtml E url) = Ok html ->
       candidate E (cheerio_load E html) url = Some imgUrl ->
       snd (getBuffer E imgUrl url) = Ok buf ->
       sharp_metadata E buf = Some m ->
       width m = None \/ height m = None \/ width m = Some 0 \/ height m = Some 0 ->
       degenerate (Some m) = false
       /\ downloads (fst (try_block E d id url)) = [imgUrl].
Proof.
  split; [exact degenerate_spec |].
  intros html imgUrl buf m Hpage Hcand Hbuf Hmeta Hm.
  pose proof (incomplete_is_not_tiny m Hm) as Htiny.
  split; [exact Htiny |].
  rewrite downloads_try_block, Hpage. cbv zeta. rewrite Hcand, Hbuf, Hmeta.
  simpl degenerate. now rewrite Htiny.
Qed.

(** On the shop page, an [og:image] whose metadata has no width is kept,
    although the body holds another picture. *)
Lemma incomplete_metadata_is_not_degenerate_witness :
  degenerate (Some {| width := None; height := Some 50 |}) = false
  /\ downloads (fst (try_block
       (Model.make (Model.shop [([Byte.x01], {| width := None; height := Some 50 |})]))
       (Model.deal "x1" "https://example.com/p" "Widget")
       "x1" "https://example.com/p"))
     = ["https://example.com/img/widget.jpg"].
Proof.
  refine (proj2 (incomplete_metadata_is_not_degenerate
            (Model.make (Model.shop [([Byte.x01], {| width := None; height := Some 50 |})]))
            (Model.deal "x1" "https://example.com/p" "Widget")
            "x1" "https://example.com/p")
            "<widget>" "https://example.com/img/widget.jpg" [Byte.x01]
            {| width := None; height := Some 50 |} _ _ _ _ _);
    try reflexivity.
  left. reflexivity.
Defined.

(** ** The selection policy *)

Lemma js_or_first (a b : json) : truthy a = true -> a -||- b = a.
Proof. unfold js_or. now intros ->. Qed.

Lemma js_or_second (a b : json) : truthy a = false -> a -||- b = b.
Proof. unfold js_or. now intros ->. Qed.

Lemma truthy_str (u : string) : Str.truthy u = true <-> u <> "".
Proof. destruct u; simpl; split; congruence. Qed.






(** An iteration that enters the [try] block. *)
Lemma iteration_enters (E : env) (d : Deal.t) (id url : string) :
  Deal.present (Deal.image d) = false ->
  Deal.id d = Some id -> Deal.url d = Some url -> id <> "" -> url <> "" ->
  iteration E d
  = match try_block E d id url with
    | (t, Ok (Saved d')) => (t, (d', true))
    | (t, Ok Skipped) => (t, (d, false))
    | (t, Throw e) => ((t ++ [Console LError (MsgFailed id e)])%list, (d, false))
    end.
Proof.
  intros Himg Hid Hurl Hi Hu. unfold iteration. rewrite Himg, Hid, Hurl.
  apply truthy_str in Hi, Hu. now rewrite Hi, Hu.
Qed.



(** ** The size-keyed image map *)

(** *** The order of the doubles *)

Ltac order_cases :=
  repeat match goal with
         | |- context [Pos.compare_cont Eq ?a ?b] =>
             change (Pos.compare_cont Eq a b) with (Pos.compare a b)
         | H : context [Pos.compare_cont Eq ?a ?b] |- _ =>
             change (Pos.compare_cont Eq a b) with (Pos.compare a b) in H
         | |- context [Z.compare ?a ?b] => destruct (Z.compare_spec a b)
         | H : context [Z.compare ?a ?b] |- _ => destruct (Z.compare_spec a b)
         | |- context [Pos.compare ?a ?b] => destruct (Pos.compare_spec a b)
         | H : context [Pos.compare ?a ?b] |- _ => destruct (Pos.compare_spec a b)
         end.

Lemma ltb_trans (a b c : Double.t) :
  Double.ltb a b = true -> Double.ltb b c = true -> Double.ltb a c = true.
Proof.
  unfold Double.ltb, SFltb, SFcompare.
  destruct a as [[]|[]| |[] m1 e1], b as [[]|[]| |[] m2 e2], c as [[]|[]| |[] m3 e3];
    cbn; try easy; intros H1 H2;
    order_cases; cbn in *; try easy; try lia.
Qed.

(** What is below [c] is below any number or has that number below [c]. *)
Lemma ltb_cotrans (a b c : Double.t) :
  Double.ltb a c = true -> Double.is_nan b = false ->
  Double.ltb a b = true \/ Double.ltb b c = true.
Proof.
  unfold Double.ltb, SFltb, SFcompare.
  destruct a as [[]|[]| |[] m1 e1], b as [[]|[]| |[] m2 e2], c as [[]|[]| |[] m3 e3];
    cbn; try easy; intros H1 _;
    try (now left); try (now right);
    order_cases; cbn in *; try easy; try (now left); try (now right); try lia.
Qed.

Lemma ltb_not_nan (a b : Double.t) :
  Double.ltb a b = true -> Double.is_nan b = false.
Proof. destruct a as [| | |], b as [| | |]; try easy. Qed.

(** *** Whole numbers as doubles *)

Lemma digits_bounds (p : positive) :
  2 ^ (Zpos (digits2_pos p) - 1) <= Zpos p < 2 ^ Zpos (digits2_pos p).
Proof.
  induction p as [p IH | p IH |]; cbn [digits2_pos].
  - rewrite Pos2Z.inj_succ, Z.pow_succ_r by lia.
    replace (Z.succ (Zpos (digits2_pos p)) - 1)
      with (Z.succ (Zpos (digits2_pos p) - 1)) by lia.
    rewrite Z.pow_succ_r by lia. lia.
  - rewrite Pos2Z.inj_succ, Z.pow_succ_r by lia.
    replace (Z.succ (Zpos (digits2_pos p)) - 1)
      with (Z.succ (Zpos (digits2_pos p) - 1)) by lia.
    rewrite Z.pow_succ_r by lia. lia.
  - cbn. lia.
Qed.

Lemma digits_unique (p : positive) (d : Z) :
  2 ^ (d - 1) <= Zpos p < 2 ^ d -> Zpos (digits2_pos p) = d.
Proof.
  intros [Hlo Hhi]. pose proof (digits_bounds p) as [Hlo' Hhi'].
  assert (0 < d).
  { destruct (Z.ltb_spec 0 d); [assumption |].
    assert (2 ^ d <= 2 ^ 0) by (apply Z.pow_le_mono_r; lia). cbn in *. lia. }
  destruct (Z.lt_trichotomy (Zpos (digits2_pos p)) d) as [Hlt | [Heq | Hgt]];
    [| assumption |].
  - assert (2 ^ Zpos (digits2_pos p) <= 2 ^ (d - 1)) by (apply Z.pow_le_mono_r; lia).
    lia.
  - assert (2 ^ d <= 2 ^ (Zpos (digits2_pos p) - 1)) by (apply Z.pow_le_mono_r; lia).
    lia.
Qed.

Lemma iter_pos_iter {A : Type} (f : A -> A) (p : positive) :
  forall x, iter_pos f p x = Pos.iter f x p.
Proof.
  induction p as [p IH | p IH |]; intros x; cbn [iter_pos Pos.iter].
  - rewrite !IH. now rewrite !Pos.iter_swap.
  - now rewrite !IH.
  - reflexivity.
Qed.

Lemma iter_xO (m d : positive) : Zpos (Pos.iter xO m d) = Zpos m * 2 ^ Zpos d.
Proof.
  induction d as [| d IH] using Pos.peano_ind.
  - cbn [Pos.iter]. lia.
  - rewrite Pos.iter_succ, Pos2Z.inj_succ, Z.pow_succ_r by lia.
    rewrite Pos2Z.inj_xO, IH. lia.
Qed.

(** Shifting right what was shifted left loses nothing. *)
Lemma shr_exact (m d : positive) :
  iter_pos shr_1 d (Build_shr_record (Zpos (Pos.iter xO m d)) false false)
  = Build_shr_record (Zpos m) false false.
Proof.
  rewrite iter_pos_iter.
  induction d as [| d IH] using Pos.peano_ind.
  - reflexivity.
  - rewrite !Pos.iter_succ, <- Pos.iter_swap. cbn [shr_1 orb]. exact IH.
Qed.

(** Rounding a mantissa of 53 digits shifted left by [k] gives it back. *)
Lemma round_exact (s : bool) (M m : positive) (e k : Z) :
  Zpos (digits2_pos m) = 53 -> -1074 <= e <= 971 -> 0 <= k ->
  Zpos M = Zpos m * 2 ^ k ->
  binary_round_aux Double.prec Double.emax s (Zpos M) (e - k) loc_Exact
  = S754_finite s m e.
Proof.
  intros Hd He Hk HM.
  assert (HdM : Zpos (digits2_pos M) = 53 + k).
  { apply digits_unique. pose proof (digits_bounds m) as Hb. rewrite Hd in Hb.
    rewrite HM. replace (53 + k - 1) with (52 + k) by lia.
    rewrite !Z.pow_add_r by lia.
    assert (0 < 2 ^ k) by (apply Z.pow_pos_nonneg; lia). nia. }
  assert (Hfexp : forall x, fexp Double.prec Double.emax (x + e)
                            = Z.max (x + e - 53) (-1074)) by reflexivity.
  unfold binary_round_aux, shr_fexp. cbn [Zdigits2 shr_record_of_loc]. rewrite HdM.
  replace (53 + k + (e - k)) with (53 + e) by lia. rewrite Hfexp.
  replace (Z.max (53 + e - 53) (-1074) - (e - k)) with k by lia.
  assert (Hshr : shr (Build_shr_record (Zpos M) false false) (e - k) k
                 = (Build_shr_record (Zpos m) false false, e)).
  { destruct k as [| d | d]; [| | lia].
    - cbn [shr]. f_equal; [| lia]. f_equal. lia.
    - cbn [shr]. f_equal; [| lia].
      assert (M = Pos.iter xO m d) as ->.
      { apply Pos2Z.inj. now rewrite iter_xO. }
      apply shr_exact. }
  rewrite Hshr.
  cbn [shr_m loc_of_shr_record round_nearest_even Zdigits2 shr_record_of_loc].
  rewrite Hd, Hfexp. replace (Z.max (53 + e - 53) (-1074) - e) with 0 by lia.
  cbn [shr shr_m].
  replace (e <=? Double.emax - Double.prec) with true; [reflexivity |].
  symmetry. apply Z.leb_le. unfold Double.emax, Double.prec. lia.
Qed.

Lemma mantissa_spec (p : positive) :
  Zpos p < 2 ^ 53 ->
  Zpos (mantissa p) = Zpos p * 2 ^ (53 - Zpos (digits2_pos p))
  /\ Zpos (digits2_pos (mantissa p)) = 53 /\ -52 <= exponent p <= 0.
Proof.
  intros Hp. pose proof (digits_bounds p) as [Hlo Hhi].
  assert (Hd : Zpos (digits2_pos p) <= 53).
  { destruct (Z.leb_spec (Zpos (digits2_pos p)) 53); [assumption |].
    assert (2 ^ 53 <= 2 ^ (Zpos (digits2_pos p) - 1))
      by (apply Z.pow_le_mono_r; lia).
    lia. }
  assert (Hm : Zpos (mantissa p) = Zpos p * 2 ^ (53 - Zpos (digits2_pos p))).
  { unfold mantissa. destruct (53 - Zpos (digits2_pos p)) as [| d | d] eqn:Hk; [| | lia].
    - cbn. lia.
    - apply iter_xO. }
  split; [assumption |]. split; [| unfold exponent; lia].
  apply digits_unique. rewrite Hm.
  set (d := Zpos (digits2_pos p)) in *.
  replace (53 - 1) with ((d - 1) + (53 - d)) by lia.
  replace (2 ^ 53) with (2 ^ (d + (53 - d))) by (f_equal; lia).
  rewrite !Z.pow_add_r by lia.
  assert (0 < 2 ^ (53 - d)) by (apply Z.pow_pos_nonneg; lia). nia.
Qed.

(** The double of a positive integer below [2^53] is that integer. *)
Lemma of_Z_pos (p : positive) :
  Zpos p < 2 ^ 53 ->
  Double.of_Z (Zpos p) = S754_finite false (mantissa p) (exponent p).
Proof.
  intros Hp. destruct (mantissa_spec p Hp) as (Hm & Hd & He).
  unfold Double.of_Z, binary_normalize, binary_round.
  pose proof (digits_bounds p) as [Hlo Hhi].
  assert (Hf : fexp Double.prec Double.emax (Zpos (digits2_pos p) + 0) = exponent p).
  { unfold fexp, emin, exponent, Double.prec, Double.emax in *. lia. }
  rewrite Hf. unfold shl_align, mantissa, exponent in *.
  destruct (53 - Zpos (digits2_pos p)) as [| d | d] eqn:Hk; [| | lia].
  - replace (Zpos (digits2_pos p) - 53 - 0) with 0 by lia.
    replace 0 with (Zpos (digits2_pos p) - 53 - 0) at 1 by lia.
    apply round_exact; try lia.
  - replace (Zpos (digits2_pos p) - 53 - 0) with (Zneg d) by lia.
    replace (Zpos (digits2_pos p) - 53) with (Zpos (digits2_pos p) - 53 - 0) at 1 by lia.
    apply round_exact; try lia.
Qed.

(** The product of two positive integers is exact when it is below [2^53]. *)
Lemma mul_exact (w h : positive) :
  Zpos w * Zpos h < 2 ^ 53 ->
  Double.mul (Double.of_Z (Zpos w)) (Double.of_Z (Zpos h)) = Double.of_Z (Zpos (w * h)).
Proof.
  intros Hp.
  assert (Hw : Zpos w < 2 ^ 53) by nia.
  assert (Hh : Zpos h < 2 ^ 53) by nia.
  assert (Hwh : Zpos (w * h) < 2 ^ 53) by (rewrite Pos2Z.inj_mul; exact Hp).
  rewrite !of_Z_pos by assumption.
  destruct (mantissa_spec w Hw) as (Hmw & Hdw & Hew).
  destruct (mantissa_spec h Hh) as (Hmh & Hdh & Heh).
  destruct (mantissa_spec (w * h) Hwh) as (Hmp & Hdp & Hep).
  pose proof (digits_bounds w) as [Hlw Huw].
  pose proof (digits_bounds h) as [Hlh Huh].
  pose proof (digits_bounds (w * h)) as [Hlp Hup].
  unfold Double.mul, SFmul. cbn [xorb]. unfold exponent in *.
  set (dw := Zpos (digits2_pos w)) in *.
  set (dh := Zpos (digits2_pos h)) in *.
  set (dp := Zpos (digits2_pos (w * h))) in *.
  assert (Hdp' : dw + dh - 1 <= dp <= dw + dh).
  { rewrite Pos2Z.inj_mul in Hlp, Hup. split.
    - destruct (Z.leb_spec (dw + dh - 1) dp); [assumption |].
      assert (2 ^ dp <= 2 ^ (dw + dh - 2)) by (apply Z.pow_le_mono_r; lia).
      replace (dw + dh - 2) with ((dw - 1) + (dh - 1)) in * by lia.
      rewrite Z.pow_add_r in * by lia. nia.
    - destruct (Z.leb_spec dp (dw + dh)); [assumption |].
      assert (2 ^ (dw + dh) <= 2 ^ (dp - 1)) by (apply Z.pow_le_mono_r; lia).
      rewrite Z.pow_add_r in * by lia. nia. }
  replace (dw - 53 + (dh - 53)) with ((dp - 53) - (53 + dp - dw - dh)) by lia.
  apply round_exact; try lia.
  rewrite Pos2Z.inj_mul, Hmw, Hmh, Hmp, Pos2Z.inj_mul.
  replace (53 - dw) with ((53 - dp) + (53 + dp - dw - dh) - (53 - dh)) by lia.
  set (a := 53 - dp) in *. set (k := 53 + dp - dw - dh) in *. set (b := 53 - dh) in *.
  assert (2 ^ (a + k - b) * 2 ^ b = 2 ^ a * 2 ^ k).
  { rewrite <- !Z.pow_add_r by lia. f_equal. lia. }
  nia.
Qed.

(** Below [2^53] the doubles of the integers are ordered as the integers. *)
Lemma ltb_exact (a b : Z) :
  0 <= a < 2 ^ 53 -> 0 <= b < 2 ^ 53 ->
  Double.ltb (Double.of_Z a) (Double.of_Z b) = (a <? b).
Proof.
  intros Ha Hb.
  destruct a as [| pa | pa]; [| | lia]; destruct b as [| pb | pb]; try lia;
    rewrite ?of_Z_pos by lia; try reflexivity.
  destruct (mantissa_spec pa ltac:(lia)) as (Hma & _ & Hea).
  destruct (mantissa_spec pb ltac:(lia)) as (Hmb & _ & Heb).
  pose proof (digits_bounds pa) as [Hla Hua].
  pose proof (digits_bounds pb) as [Hlb Hub].
  unfold Double.ltb, SFltb, SFcompare, exponent in *.
  change (Pos.compare_cont Eq (mantissa pa) (mantissa pb))
    with (Pos.compare (mantissa pa) (mantissa pb)).
  set (da := Zpos (digits2_pos pa)) in *. set (db := Zpos (digits2_pos pb)) in *.
  destruct (Z.compare_spec (da - 53) (db - 53)) as [He | He | He].
  - assert (da = db) as Hd by lia. rewrite Hd in *.
    assert (0 < 2 ^ (53 - db)) by (apply Z.pow_pos_nonneg; lia).
    destruct (Pos.compare_spec (mantissa pa) (mantissa pb)) as [Hm | Hm | Hm];
      symmetry; [apply Z.ltb_ge | apply Z.ltb_lt | apply Z.ltb_ge].
    + rewrite Hm in Hma. nia.
    + apply Pos2Z.pos_lt_pos in Hm. nia.
    + apply Pos2Z.pos_lt_pos in Hm. nia.
  - symmetry. apply Z.ltb_lt.
    assert (2 ^ da <= 2 ^ (db - 1)) by (apply Z.pow_le_mono_r; lia). lia.
  - symmetry. apply Z.ltb_ge.
    assert (2 ^ db <= 2 ^ (da - 1)) by (apply Z.pow_le_mono_r; lia). lia.
Qed.

(** A whole number below [2^53] is falsy exactly when it is 0, and [0] it
    is then. *)
Lemma or_zero_of_Z (z : Z) :
  0 <= z < 2 ^ 53 -> or_zero (Double.of_Z z) = Double.of_Z z.
Proof.
  intros Hz. destruct z as [| p | p]; [reflexivity | | lia].
  now rewrite of_Z_pos by lia.
Qed.

Lemma of_Z_not_nan (z : Z) :
  0 <= z < 2 ^ 53 -> Double.is_nan (Double.of_Z z) = false.
Proof.
  intros Hz. destruct z as [| p | p]; [reflexivity | | lia].
  now rewrite of_Z_pos by lia.
Qed.

Lemma mul_whole (w h : Z) :
  0 <= w < 2 ^ 53 -> 0 <= h < 2 ^ 53 -> w * h < 2 ^ 53 ->
  Double.mul (Double.of_Z w) (Double.of_Z h) = Double.of_Z (w * h).
Proof.
  intros Hw Hh Hp.
  destruct w as [| w | w]; [| | lia]; destruct h as [| h | h]; try lia; cbn [Z.mul].
  - reflexivity.
  - now rewrite of_Z_pos by lia.
  - now rewrite of_Z_pos by lia.
  - now apply mul_exact.
Qed.

Section LargestArea.

Variable E : env.

Lemma score_not_nan (size : json) : Double.is_nan (score E size) = false.
Proof.
  unfold score. destruct (area_of E size) as [a |]; [| reflexivity].
  now destruct (Double.is_nan a) eqn:Ha.
Qed.

(** What the loop computes from any state whose best area is not negative,
    when no conversion throws: it keeps its state when no entry beats the
    best area, and otherwise ends on the first entry of strictly largest
    area. *)
Lemma largest_from_cases (entries : list (string * json)) :
  Forall (fun e => computable E (snd e)) entries ->
  forall best bestArea, Double.ltb bestArea Double.zero = false ->
    (largest_from E entries best bestArea = Ok best
     /\ Forall (fun e => Double.ltb bestArea (score E (snd e)) = false) entries)
    \/ exists pre u size post,
         largest_from E entries best bestArea = Ok (Some u)
         /\ entries = (pre ++ (u, size) :: post)%list
         /\ Double.ltb bestArea (score E size) = true
         /\ Forall (fun e => Double.ltb (score E (snd e)) (score E size) = true) pre
         /\ Forall (fun e => Double.ltb (score E size) (score E (snd e)) = false) post.
Proof.
  induction 1 as [| [u size] rest [a Ha] _ IH]; intros best bestArea Hpos.
  - left. split; [reflexivity | constructor].
  - cbn [largest_from]. cbn [snd] in Ha. rewrite Ha.
    destruct (Double.ltb bestArea a) eqn:Hb.
    + assert (Hs : score E size = a).
      { unfold score. rewrite Ha. now rewrite (ltb_not_nan _ _ Hb). }
      assert (Hpos' : Double.ltb a Double.zero = false).
      { destruct (Double.ltb a Double.zero) eqn:Hneg; [| reflexivity].
        now rewrite (ltb_trans _ _ _ Hb Hneg) in Hpos. }
      destruct (IH (Some u) a Hpos')
        as [[Hr Hall] | (pre & u' & size' & post & Hr & -> & Hlt' & Hpre & Hpost)].
      * right. exists [], u, size, rest. rewrite Hs.
        split; [assumption |]. split; [reflexivity |]. split; [assumption |].
        split; [constructor | assumption].
      * right. exists ((u, size) :: pre), u', size', post.
        split; [assumption |]. split; [reflexivity |].
        split; [exact (ltb_trans _ _ _ Hb Hlt') |]. split; [| assumption].
        constructor; [cbn [snd]; now rewrite Hs | assumption].
    + assert (Hs : Double.ltb bestArea (score E size) = false).
      { unfold score. rewrite Ha. now destruct (Double.is_nan a). }
      destruct (IH best bestArea Hpos)
        as [[Hr Hall] | (pre & u' & size' & post & Hr & -> & Hlt' & Hpre & Hpost)].
      * left. split; [assumption |]. now constructor.
      * right. exists ((u, size) :: pre), u', size', post.
        split; [assumption |]. split; [reflexivity |]. split; [assumption |].
        split; [| assumption]. constructor; [| assumption]. cbn [snd].
        destruct (ltb_cotrans _ (score E size) _ Hlt' (score_not_nan size))
          as [Hc | Hc]; [congruence | assumption].
Qed.

(** The first entry of strictly largest area is unique. *)
Lemma first_largest_unique (pre pre' post post' : list (string * json))
      (x x' : string * json) :
  (pre ++ x :: post = pre' ++ x' :: post')%list ->
  Forall (fun e => Double.ltb (score E (snd e)) (score E (snd x)) = true) pre ->
  Forall (fun e => Double.ltb (score E (snd x)) (score E (snd e)) = false) post ->
  Forall (fun e => Double.ltb (score E (snd e)) (score E (snd x')) = true) pre' ->
  Forall (fun e => Double.ltb (score E (snd x')) (score E (snd e)) = false) post' ->
  x = x'.
Proof.
  revert pre'.
  induction pre as [| y pre IH]; intros [| y' pre'] Heq Hpre Hpost Hpre' Hpost';
    cbn [app] in Heq; injection Heq as Hhd Htl.
  - assumption.
  - subst y' post. inversion Hpre' as [| ? ? Hlt _]; subst.
    apply Forall_app in Hpost as [_ Hpost].
    inversion Hpost as [| ? ? Hle _]; subst. congruence.
  - subst y post'. inversion Hpre as [| ? ? Hlt _]; subst.
    apply Forall_app in Hpost' as [_ Hpost'].
    inversion Hpost' as [| ? ? Hle _]; subst. congruence.
  - subst y'. inversion Hpre; inversion Hpre'; subst.
    now apply (IH pre').
Qed.

(** The loop from its initial state: what it answers is the first entry of
    strictly largest area, that area being positive. *)
Lemma largest_from_iff (entries : list (string * json)) (u : string) :
  Forall (fun e => computable E (snd e)) entries ->
  largest_from E entries None Double.zero = Ok (Some u)
  <-> exists pre size post,
        entries = (pre ++ (u, size) :: post)%list
        /\ Double.ltb Double.zero (score E size) = true
        /\ Forall (fun e => Double.ltb (score E (snd e)) (score E size) = true) pre
        /\ Forall (fun e => Double.ltb (score E size) (score E (snd e)) = false) post.
Proof.
  intros Hok. split.
  - intros Hr.
    destruct (largest_from_cases entries Hok None Double.zero eq_refl)
      as [[Hnone _] | (pre & u' & size & post & Hu & -> & Hlt & Hpre & Hpost)].
    + congruence.
    + rewrite Hu in Hr. injection Hr as <-. now exists pre, size, post.
  - intros (pre & size & post & -> & Hlt & Hpre & Hpost).
    destruct (largest_from_cases (pre ++ (u, size) :: post) Hok None Double.zero eq_refl)
      as [[_ Hall] | (pre' & u' & size' & post' & Hu & Heq & Hlt' & Hpre' & Hpost')].
    + apply Forall_app in Hall as [_ Hall].
      inversion Hall as [| ? ? Hle _]; subst. cbn [snd] in Hle. congruence.
    + rewrite Hu. do 2 f_equal.
      pose proof (first_largest_unique pre pre' post post' (u, size) (u', size')
                    Heq Hpre Hpost Hpre' Hpost') as Hx.
      now injection Hx.
Qed.

Lemma pixels_bounds (d : dimensions) : whole d -> 0 <= pixels d < 2 ^ 53.
Proof.
  destruct d as [w h | v]; cbn [whole pixels]; [| intros _; split; reflexivity].
  intros (Hw & Hh & Hp). split; [nia | assumption].
Qed.

(** What is not an array has the area of [[0, 0]]. *)
Lemma area_of_malformed (size : json) :
  (forall items, size <> JArr items) -> area_of E size = Ok Double.zero.
Proof.
  intros Hsize. unfold area_of.
  destruct size; try reflexivity. now destruct (Hsize items).
Qed.

(** The area of a pair of numbers: a falsy one counts for 0. *)
Lemma area_of_numbers (x y : Double.t) :
  area_of E (JArr [JNum x; JNum y]) = Ok (Double.mul (or_zero x) (or_zero y)).
Proof.
  unfold area_of, or_zero, js_or. cbn [nth truthy].
  now destruct (Double.truthy x), (Double.truthy y).
Qed.

(** The area of a size in whole pixels is its number of pixels, as long
    as a double holds it. *)
Lemma area_of_whole (d : dimensions) :
  whole d -> area_of E (size_json d) = Ok (Double.of_Z (pixels d)).
Proof.
  destruct d as [w h | v]; cbn [whole size_json pixels].
  - intros (Hw & Hh & Hp).
    rewrite area_of_numbers, !or_zero_of_Z by assumption.
    now rewrite mul_whole.
  - apply area_of_malformed.
Qed.

Lemma score_whole (d : dimensions) :
  whole d -> score E (size_json d) = Double.of_Z (pixels d).
Proof.
  intros Hd. unfold score. rewrite (area_of_whole d Hd).
  now rewrite (of_Z_not_nan _ (pixels_bounds d Hd)).
Qed.

(** On a map of sizes in whole pixels whose areas a double holds, the loop
    answers the first entry with strictly the most pixels. *)
Lemma largest_from_whole (sizes : list (string * dimensions)) (u : string) :
  Forall (fun e => whole (snd e)) sizes ->
  largest_from E (sized_entries sizes) None Double.zero = Ok (Some u)
  <-> exists pre wh post,
        sizes = (pre ++ (u, wh) :: post)%list
        /\ 0 < pixels wh
        /\ Forall (fun e => pixels (snd e) < pixels wh) pre
        /\ Forall (fun e => pixels (snd e) <= pixels wh) post.
Proof.
  intros Hall.
  assert (Hok : Forall (fun e => computable E (snd e)) (sized_entries sizes)).
  { unfold sized_entries. rewrite Forall_map.
    apply (Forall_impl _ (P := fun e => whole (snd e))); [| exact Hall].
    intros e He. cbn [snd]. eexists. exact (area_of_whole _ He). }
  rewrite (largest_from_iff _ u Hok). rewrite Forall_forall in Hall.
  assert (Hlt : forall a b, whole a -> whole b ->
                  Double.ltb (score E (size_json a)) (score E (size_json b))
                  = (pixels a <? pixels b)).
  { intros a b Ha Hb. rewrite !score_whole by assumption.
    apply ltb_exact; now apply pixels_bounds. }
  assert (Hz : forall b, whole b ->
                 Double.ltb Double.zero (score E (size_json b)) = (0 <? pixels b)).
  { intros b Hb. rewrite score_whole by assumption.
    apply (ltb_exact 0); [lia | now apply pixels_bounds]. }
  split.
  - intros (pre & size & post & Heq & Hpos & Hpre & Hpost).
    unfold sized_entries in Heq.
    apply map_eq_app in Heq as (pre' & rest & -> & <- & Hrest).
    apply map_eq_cons in Hrest as ([u' wh] & post' & -> & Hx & <-).
    cbn [fst snd] in Hx. injection Hx as -> <-.
    assert (Hwh : whole wh).
    { apply (Hall (u, wh)). apply in_or_app. right. now left. }
    exists pre', wh, post'. split; [reflexivity |].
    rewrite Hz in Hpos by assumption. split; [now apply Z.ltb_lt |].
    rewrite Forall_map in Hpre, Hpost. rewrite Forall_forall in Hpre, Hpost.
    split; apply Forall_forall; intros [u0 wh0] Hin; cbn [snd].
    + specialize (Hpre _ Hin). cbn [snd] in Hpre.
      rewrite Hlt in Hpre; [now apply Z.ltb_lt | | assumption].
      apply (Hall (u0, wh0)). apply in_or_app. now left.
    + specialize (Hpost _ Hin). cbn [snd] in Hpost.
      rewrite Hlt in Hpost; [now apply Z.ltb_ge | assumption |].
      apply (Hall (u0, wh0)). apply in_or_app. right. now right.
  - intros (pre & wh & post & -> & Hpos & Hpre & Hpost).
    assert (Hwh : whole wh).
    { apply (Hall (u, wh)). apply in_or_app. right. now left. }
    exists (sized_entries pre), (size_json wh), (sized_entries post).
    split; [unfold sized_entries; now rewrite map_app |].
    rewrite Hz by assumption. split; [now apply Z.ltb_lt |].
    rewrite Forall_forall in Hpre, Hpost.
    unfold sized_entries. rewrite !Forall_map.
    split; apply Forall_forall; intros [u0 wh0] Hin; cbn [snd].
    + rewrite Hlt; [apply Z.ltb_lt; exact (Hpre _ Hin) | | assumption].
      apply (Hall (u0, wh0)). apply in_or_app. now left.
    + rewrite Hlt; [apply Z.ltb_ge; exact (Hpost _ Hin) | assumption |].
      apply (Hall (u0, wh0)). apply in_or_app. right. now right.
Qed.

(** The map branch of [tryEl], when the largest entry has a name. *)
Lemma tryEl_map (el : list node) (dyn : string) (parsed : json)
      (entries : list (string * json)) (u : string) :
  el <> [] ->
  attr_truthy el "data-old-hires" = None ->
  attr_truthy el "src" = None ->
  attr_truthy el "data-a-dynamic-image" = Some dyn ->
  parse_dynamic_image E dyn = Some parsed ->
  Object_entries parsed = Some entries ->
  u <> "" ->
  largest_from E entries None Double.zero = Ok (Some u) ->
  tryEl E el = JStr u.
Proof.
  intros Hel Hold Hsrc Hdyn Hparse Hentries Hu Hbest.
  unfold tryEl. destruct el; [contradiction |].
  rewrite Hold, Hsrc, Hdyn. unfold tryEl_dynamic.
  rewrite Hparse, Hentries, Hbest. apply truthy_str in Hu. now rewrite Hu.
Qed.

End LargestArea.

(** Two sizes whose products differ by one, the second being the larger,
    and round to the same double: the extractor answers the first. *)
Lemma rounded_products_tie :
  pickAmazonImage (Model.make Model.warehouse) Model.oversized = JStr "a"
  /\ 94906266 * 94906268 < 94906267 * 94906267
  /\ Double.mul (Double.of_Z 94906266) (Double.of_Z 94906268)
     = Double.mul (Double.of_Z 94906267) (Double.of_Z 94906267).
Proof. split; [| split]; vm_compute; reflexivity. Qed.

(** C4, amended. From a size-keyed image map the marketplace extractor
    takes the URL whose width x height, the product of two doubles rounded
    to a double, is strictly the largest, the earliest one among equals,
    which products that round to the same double are. On a map of sizes in
    whole pixels with areas below [2^53], malformed values that are not
    arrays among them, that is the URL with the most pixels, the earliest
    one among equals. A value that is not an array counts for an area of 0,
    and so does a width or a height that is falsy. This is what the
    landmark image answers when it has no other attribute, and what the
    image of the wrapper answers when the landmark yields nothing. On the
    map a: 100x100, b: 400x400, c: not an array, it is b. *)
Theorem largest_area_wins (E : env) :
  (forall entries u,
     Forall (fun e => computable E (snd e)) entries ->
     largest_from E entries None Double.zero = Ok (Some u)
     <-> exists pre size post,
           entries = (pre ++ (u, size) :: post)%list
           /\ Double.ltb Double.zero (score E size) = true
           /\ Forall (fun e => Double.ltb (score E (snd e)) (score E size) = true) pre
           /\ Forall (fun e => Double.ltb (score E size) (score E (snd e)) = false) post)
  /\ (forall sizes u,
        Forall (fun e => whole (snd e)) sizes ->
        largest_from E (sized_entries sizes) None Double.zero = Ok (Some u)
        <-> exists pre wh post,
              sizes = (pre ++ (u, wh) :: post)%list
              /\ 0 < pixels wh
              /\ Forall (fun e => pixels (snd e) < pixels wh) pre
              /\ Forall (fun e => pixels (snd e) <= pixels wh) post)
  /\ (forall x y,
        area_of E (JArr [JNum x; JNum y]) = Ok (Double.mul (or_zero x) (or_zero y)))
  /\ (forall size, (forall items, size <> JArr items) -> area_of E size = Ok Double.zero)
  /\ (forall doc dyn parsed entries u,
        attr_truthy (select_id doc "landingImage") "data-old-hires" = None ->
        attr_truthy (select_id doc "landingImage") "src" = None ->
        attr_truthy (select_id doc "landingImage") "data-a-dynamic-image" = Some dyn ->
        parse_dynamic_image E dyn = Some parsed ->
        Object_entries parsed = Some entries ->
        u <> "" ->
        largest_from E entries None Double.zero = Ok (Some u) ->
        pickAmazonImage E doc = JStr u)
  /\ (forall doc dyn parsed entries u,
        truthy (tryEl E (select_id doc "landingImage")) = false ->
        attr_truthy (select_id_descendants doc "imgTagWrapperId" "img") "data-old-hires"
        = None ->
        attr_truthy (select_id_descendants doc "imgTagWrapperId" "img") "src" = None ->
        attr_truthy (select_id_descendants doc "imgTagWrapperId" "img")
          "data-a-dynamic-image" = Some dyn ->
        parse_dynamic_image E dyn = Some parsed ->
        Object_entries parsed = Some entries ->
        u <> "" ->
        largest_from E entries None Double.zero = Ok (Some u) ->
        pickAmazonImage E doc = JStr u)
  /\ largest_from E
       [("a", JArr [JNum (Double.of_Z 100); JNum (Double.of_Z 100)]);
        ("b", JArr [JNum (Double.of_Z 400); JNum (Double.of_Z 400)]);
        ("c", JStr "not-an-array")] None Double.zero
     = Ok (Some "b").
Proof.
  split; [| split; [| split; [| split; [| split; [| split]]]]].
  - intros entries u Hok. now apply largest_from_iff.
  - intros sizes u Hall. now apply largest_from_whole.
  - intros x y. apply area_of_numbers.
  - intros size Hsize. now apply area_of_malformed.
  - intros doc dyn parsed entries u Hold Hsrc Hdyn Hparse Hentries Hu Hbest.
    unfold pickAmazonImage. cbv zeta.
    rewrite (tryEl_map E _ dyn parsed entries u); trivial.
    + cbn [truthy]. apply truthy_str in Hu. now rewrite Hu.
    + intros Hnil. rewrite Hnil in Hdyn. discriminate.
  - intros doc dyn parsed entries u Hland Hold Hsrc Hdyn Hparse Hentries Hu Hbest.
    unfold pickAmazonImage. cbv zeta. rewrite Hland.
    rewrite (tryEl_map E _ dyn parsed entries u); trivial.
    + cbn [truthy]. apply truthy_str in Hu. now rewrite Hu.
    + intros Hnil. rewrite Hnil in Hdyn. discriminate.
  - vm_compute. reflexivity.
Qed.

(** On the product page of the example, whose landmark image only carries
    the map above, the extractor answers b, the entry with 160000 pixels,
    after 10000 and before 0; and so it does when the map is on the image
    of the wrapper. *)
Lemma largest_area_wins_witness :
  pickAmazonImage (Model.make Model.marketplace) Model.landmark = JStr "b"
  /\ pickAmazonImage (Model.make Model.marketplace) Model.wrapped = JStr "b"
  /\ largest_from (Model.make Model.marketplace)
       (sized_entries [("a", Pixels 100 100); ("b", Pixels 400 400);
                       ("c", Malformed (JStr "not-an-array"))]) None Double.zero
     = Ok (Some "b").
Proof.
  pose proof (largest_area_wins (Model.make Model.marketplace))
    as (_ & Hwhole & _ & _ & Hlandmark & Hwrapper & _).
  assert (Hb : largest_from (Model.make Model.marketplace)
                 (sized_entries [("a", Pixels 100 100); ("b", Pixels 400 400);
                                 ("c", Malformed (JStr "not-an-array"))])
                 None Double.zero
               = Ok (Some "b")).
  { apply Hwhole.
    - repeat constructor; cbn; try lia. discriminate.
    - exists [("a", Pixels 100 100)], (Pixels 400 400),
             [("c", Malformed (JStr "not-an-array"))].
      split; [reflexivity |]. split; [cbn; lia |].
      split; repeat constructor; cbn; lia. }
  split; [| split; [| exact Hb]].
  - refine (Hlandmark Model.landmark Model.packed_attr Model.packed_map _ "b"
              _ _ _ _ _ _ Hb); try reflexivity. discriminate.
  - refine (Hwrapper Model.wrapped Model.packed_attr Model.packed_map _ "b"
              _ _ _ _ _ _ _ Hb); try reflexivity. discriminate.
Defined.

(** ** The loop over the catalog *)

Section Loop.

Variable E : env.

(** The loop handles the deals one by one: its events are those of the
    iterations, in order, and [changed] is set once an iteration sets it. *)
Lemma for_deals_map (deals : list Deal.t) (changed : bool) :
  for_deals E deals changed
  = (flat_map (fun d => fst (iteration E d)) deals,
     (map (fun d => fst (snd (iteration E d))) deals,
      changed || existsb (fun d => snd (snd (iteration E d))) deals)).
Proof.
  revert changed. induction deals as [| d rest IH]; intros changed.
  - simpl. now rewrite orb_false_r.
  - cbn [for_deals flat_map map existsb].
    destruct (iteration E d) as [t [d' set]]. rewrite IH. cbn [fst snd].
    now destruct set, changed.
Qed.

Lemma for_deals_app (before after : list Deal.t) (changed : bool) :
  for_deals E (before ++ after) changed
  = let '(t1, (before', c1)) := for_deals E before changed in
    let '(t2, (after', c2)) := for_deals E after c1 in
    ((t1 ++ t2)%list, ((before' ++ after')%list, c2)).
Proof.
  rewrite !for_deals_map, flat_map_app, map_app, existsb_app.
  now rewrite orb_assoc.
Qed.

(** An iteration either leaves the deal as it was, without setting
    [changed], or it gives an image to a deal that had none. *)
Lemma iteration_cases (d : Deal.t) :
  (fst (snd (iteration E d)) = d /\ snd (snd (iteration E d)) = false)
  \/ (snd (snd (iteration E d)) = true
      /\ Deal.present (Deal.image d) = false
      /\ Deal.present (Deal.image (fst (snd (iteration E d)))) = true).
Proof.
  unfold iteration.
  destruct (Deal.present (Deal.image d)) eqn:Himg; [now left |].
  destruct (Deal.url d) as [url |]; [| now left].
  destruct (Deal.id d) as [id |]; [| now left].
  destruct (negb (Str.truthy url) || negb (Str.truthy id)); [now left |].
  pose proof (try_block_unfold E d id url) as Hunfold.
  destruct (try_block E d id url) as [t [[| d'] | e]]; [now left | | now left].
  right. repeat split. cbn [fst snd].
  revert Hunfold. cbv beta iota zeta delta [bind emit lift ret].
  destruct (getHtml E url) as [t0 [html | e0]]; [| discriminate].
  destruct (candidate E (cheerio_load E html) url) as [imgUrl |]; [| discriminate].
  destruct (getBuffer E imgUrl url) as [t1 [buf | e1]]; [| discriminate].
  destruct (if degenerate (sharp_metadata E buf)
            then try_fallback E (cheerio_load E html) url imgUrl buf
            else ([], Ok buf)) as [t2 [buf' | e2]]; [| discriminate].
  destruct (sharp_resize_webp E buf') as [webp | e3]; [| discriminate].
  match goal with
  | |- context [writeFile E ?p ?c] => destruct (writeFile E p c) as [u | e4]
  end; [| discriminate].
  intros [= _ ->]. reflexivity.
Qed.

(** An iteration never writes the catalog. *)
Lemma iteration_writes_no_catalog (d : Deal.t) :
  catalog_writes (fst (iteration E d)) = [].
Proof.
  unfold iteration.
  destruct (Deal.present (Deal.image d)); [reflexivity |].
  destruct (Deal.url d) as [url |]; [| reflexivity].
  destruct (Deal.id d) as [id |]; [| reflexivity].
  destruct (negb (Str.truthy url) || negb (Str.truthy id)); [reflexivity |].
  assert (Hblock : catalog_writes (fst (try_block E d id url)) = []).
  { rewrite try_block_unfold.
    rewrite fst_bind, catalog_writes_app. cbn [fst snd emit catalog_writes app].
    rewrite fst_bind, catalog_writes_app, getHtml_events. cbn [catalog_writes app].
    destruct (snd (getHtml E url)) as [html | e]; [| reflexivity]. cbv zeta.
    destruct (candidate E (cheerio_load E html) url) as [imgUrl |]; [| reflexivity].
    rewrite fst_bind, catalog_writes_app. cbn [fst snd emit catalog_writes app].
    rewrite fst_bind, catalog_writes_app, getBuffer_events. cbn [catalog_writes app].
    destruct (snd (getBuffer E imgUrl url)) as [buf | e]; [| reflexivity].
    rewrite fst_bind, catalog_writes_app.
    assert (Hfb : forall b : bool, catalog_writes
                    (fst (if b then try_fallback E (cheerio_load E html) url imgUrl buf
                          else ret buf)) = []).
    { intros [|]; [| reflexivity]. rewrite try_fallback_unfold.
      destruct (fallback_candidate E (cheerio_load E html) url imgUrl) as [a |];
        [| reflexivity].
      rewrite fst_bind, catalog_writes_app, getBuffer_events. reflexivity. }
    rewrite Hfb. cbn [app].
    match goal with |- context [snd ?m] => destruct (snd m) as [buf' | e] end;
      [| reflexivity].
    destruct (sharp_resize_webp E buf') as [webp | e]; [| reflexivity].
    cbv beta iota zeta delta [bind emit lift ret fst snd].
    match goal with |- context [writeFile E ?p ?c] => destruct (writeFile E p c) end;
      reflexivity. }
  destruct (try_block E d id url) as [t [[| d'] | e]]; cbn [fst] in *; trivial.
  rewrite catalog_writes_app, Hblock. reflexivity.
Qed.

End Loop.

(** ** Failures of one record *)

(** Whatever the stage that throws, the [try] block throws. *)
Lemma stage_failure_throws (E : env) (d : Deal.t) (id url e : string) :
  (snd (getHtml E url) = Throw e -> snd (try_block E d id url) = Throw e)
  /\ forall html imgUrl,
       snd (getHtml E url) = Ok html ->
       candidate E (cheerio_load E html) url = Some imgUrl ->
       (snd (getBuffer E imgUrl url) = Throw e -> snd (try_block E d id url) = Throw e)
       /\ forall buf,
            snd (getBuffer E imgUrl url) = Ok buf ->
            let settled := if degenerate (sharp_metadata E buf)
                           then try_fallback E (cheerio_load E html) url imgUrl buf
                           else ret buf in
            (snd settled = Throw e -> snd (try_block E d id url) = Throw e)
            /\ forall buf',
                 snd settled = Ok buf' ->
                 (sharp_resize_webp E buf' = Throw e ->
                  snd (try_block E d id url) = Throw e)
                 /\ forall webp,
                      sharp_resize_webp E buf' = Ok webp ->
                      writeFile E (path_join E [PUBLIC_IMG_DIR E; id ++ ".webp"]) (Bytes webp)
                      = Throw e ->
                      snd (try_block E d id url) = Throw e.
Proof.
  rewrite try_block_unfold, snd_bind. cbn [snd emit]. rewrite snd_bind.
  split; [now intros -> |].
  intros html imgUrl -> Hc. cbv zeta. rewrite Hc.
  rewrite snd_bind. cbn [snd emit]. rewrite snd_bind.
  split; [now intros -> |].
  intros buf ->. rewrite snd_bind.
  split; [now intros -> |].
  intros buf' ->. rewrite snd_bind. cbn [snd lift].
  split; [now intros -> |].
  intros webp -> Hw. rewrite snd_bind. cbn [snd emit].
  rewrite snd_bind. cbn [snd lift]. now rewrite Hw.
Qed.

(** C5. When the processing of a record fails, at whatever stage, or finds
    no usable image, the record stays as it was, the failure is logged,
    and the records after it are processed as if nothing had happened. *)
Theorem failure_is_isolated (E : env) (before after : list Deal.t) (d : Deal.t)
        (changed : bool) (id url : string) (t : list event) (r : result attempt) :
  Deal.present (Deal.image d) = false ->
  Deal.id d = Some id -> Deal.url d = Some url -> id <> "" -> url <> "" ->
  try_block E d id url = (t, r) ->
  (forall d', r <> Ok (Saved d')) ->
  for_deals E (before ++ d :: after) changed
  = let '(t1, (before', c1)) := for_deals E before changed in
    let '(t2, (after', c2)) := for_deals E after c1 in
    ((t1 ++ t
      ++ match r with
         | Throw e => [Console LError (MsgFailed id e)]
         | Ok _ => []
         end
      ++ t2)%list,
     ((before' ++ d :: after')%list, c2)).
Proof.
  intros Himg Hid Hurl Hi Hu Hblock Hr.
  rewrite for_deals_app. destruct (for_deals E before changed) as [t1 [before' c1]].
  cbn [for_deals]. rewrite (iteration_enters E d id url Himg Hid Hurl Hi Hu), Hblock.
  destruct r as [[| d'] | e].
  - destruct (for_deals E after c1) as [t2 [after' c2]]. reflexivity.
  - now destruct (Hr d').
  - destruct (for_deals E after c1) as [t2 [after' c2]].
    now rewrite <- app_assoc.
Qed.

(** A catalog of two deals: the page of the first answers 404, and the
    second deal is enriched all the same. *)
Lemma failure_is_isolated_witness :
  snd (for_deals (Model.make Model.two_deals) (Model.catalog Model.two_deals) false)
  = ([Model.deal "x0" "https://example.com/gone" "Gone"; Model.enriched], true).
Proof.
  change (Model.catalog Model.two_deals)
    with ([] ++ Model.deal "x0" "https://example.com/gone" "Gone"
             :: [Model.deal "x1" "https://example.com/p" "Widget"])%list.
  rewrite (failure_is_isolated (Model.make Model.two_deals) []
             [Model.deal "x1" "https://example.com/p" "Widget"]
             (Model.deal "x0" "https://example.com/gone" "Gone") false
             "x0" "https://example.com/gone"
             [Console LLog (MsgFetch "x0" "https://example.com/gone");
              EFetch "https://example.com/gone" page_headers]
             (Throw "GET https://example.com/gone -> 404"));
    try reflexivity; discriminate.
Defined.

(** ** Records that already have an image, and the catalog write *)

Section Run.

Variable E : env.

Lemma for_deals_untouched (deals : list Deal.t) (changed : bool) :
  Forall (fun d => Deal.present (Deal.image d) = true) deals ->
  for_deals E deals changed = ([], (deals, changed)).
Proof.
  intros Hall. revert changed.
  induction Hall as [| d rest Hd _ IH]; intros changed; [reflexivity |].
  cbn [for_deals]. unfold iteration. rewrite Hd, IH. reflexivity.
Qed.

(** [changed] is set exactly when the catalog in memory differs from the
    one read. *)
Lemma changed_iff_differs (deals : list Deal.t) :
  snd (snd (for_deals E deals false)) = true
  <-> fst (snd (for_deals E deals false)) <> deals.
Proof.
  rewrite for_deals_map. cbn [fst snd orb].
  induction deals as [| d rest IH]; cbn [map existsb].
  - split; [discriminate | congruence].
  - destruct (iteration_cases E d) as [[Hd Hset] | (Hset & Himg & Himg')];
      rewrite Hset; cbn [orb].
    + rewrite Hd, IH. split; [congruence |].
      intros Hne Heq. apply Hne. now rewrite Heq.
    + split; [| reflexivity]. intros _ [= Heq _].
      rewrite Heq in Himg'. congruence.
Qed.

(** The events of a run that gets as far as the loop. *)
Lemma main_events (deals : list Deal.t) :
  mkdir E (PUBLIC_IMG_DIR E) = Ok tt ->
  readDeals E (DEALS_PATH E) = Ok deals ->
  fst (main E)
  = ([Console LLog MsgStarting; EMkdir (PUBLIC_IMG_DIR E); EReadFile (DEALS_PATH E)]
     ++ fst (for_deals E deals false)
     ++ (if snd (snd (for_deals E deals false))
         then EWriteFile (DEALS_PATH E) (DealsJson (fst (snd (for_deals E deals false))))
              :: match writeFile E (DEALS_PATH E)
                         (DealsJson (fst (snd (for_deals E deals false)))) with
                 | Ok _ => [Console LLog MsgUpdated; Console LLog MsgDone]
                 | Throw _ => []
                 end
         else [Console LLog MsgNoChanges; Console LLog MsgDone]))%list.
Proof.
  intros Hmk Hrd. unfold main, ensureDirs. rewrite Hmk, Hrd.
  cbv beta iota zeta delta [bind emit lift ret].
  destruct (for_deals E deals false) as [t [deals' changed]].
  cbn [fst snd]. destruct changed.
  - destruct (writeFile E (DEALS_PATH E) (DealsJson deals'));
      cbn [app fst]; now rewrite ?app_nil_r.
  - cbn [app fst]. reflexivity.
Qed.

Lemma for_deals_writes_no_catalog (deals : list Deal.t) (changed : bool) :
  catalog_writes (fst (for_deals E deals changed)) = [].
Proof.
  rewrite for_deals_map. cbn [fst].
  induction deals as [| d rest IH]; [reflexivity |].
  cbn [flat_map]. now rewrite catalog_writes_app, iteration_writes_no_catalog, IH.
Qed.

End Run.

(** C7. A record that has an image when the run starts is left as it is,
    and nothing is fetched for it; hence a second run, on a catalog in
    which every record had or gained an image in the first, fetches
    nothing, changes nothing and writes nothing. *)
Theorem enriched_records_untouched (E : env) :
  (forall d, Deal.present (Deal.image d) = true -> iteration E d = ([], (d, false)))
  /\ (forall before d after changed,
        Deal.present (Deal.image d) = true ->
        for_deals E (before ++ d :: after) changed
        = let '(t1, (before', c1)) := for_deals E before changed in
          let '(t2, (after', c2)) := for_deals E after c1 in
          ((t1 ++ t2)%list, ((before' ++ d :: after')%list, c2)))
  /\ (forall E1 deals,
        Forall (fun d => Deal.present (Deal.image d) = true
                         \/ snd (snd (iteration E1 d)) = true) deals ->
        mkdir E (PUBLIC_IMG_DIR E) = Ok tt ->
        readDeals E (DEALS_PATH E) = Ok (fst (snd (for_deals E1 deals false))) ->
        main E
        = ([Console LLog MsgStarting; EMkdir (PUBLIC_IMG_DIR E); EReadFile (DEALS_PATH E);
            Console LLog MsgNoChanges; Console LLog MsgDone],
           Ok (fst (snd (for_deals E1 deals false))))).
Proof.
  split; [| split].
  - intros d Hd. unfold iteration. now rewrite Hd.
  - intros before d after changed Hd. rewrite for_deals_app.
    destruct (for_deals E before changed) as [t1 [before' c1]].
    cbn [for_deals]. unfold iteration at 1. rewrite Hd.
    destruct (for_deals E after c1) as [t2 [after' c2]]. reflexivity.
  - intros E1 deals Hall Hmk Hrd.
    assert (Himg : Forall (fun d => Deal.present (Deal.image d) = true)
                     (fst (snd (for_deals E1 deals false)))).
    { rewrite for_deals_map. cbn [fst snd]. apply Forall_map.
      apply Forall_impl with (2 := Hall). intros d [Hd | Hset].
      - unfold iteration. now rewrite Hd.
      - destruct (iteration_cases E1 d) as [[_ Hno] | (_ & _ & Hyes)];
          [congruence | assumption]. }
    unfold main, ensureDirs. rewrite Hmk, Hrd.
    cbv beta iota zeta delta [bind emit lift ret].
    rewrite (for_deals_untouched E _ false Himg). reflexivity.
Qed.

(** After the shop page gave the deal its image, a second run on the
    resulting catalog only reads it. *)
Lemma enriched_records_untouched_witness :
  main (Model.make Model.second_run)
  = ([Console LLog MsgStarting; EMkdir "/site/public/images";
      EReadFile "/site/src/data/deals.json";
      Console LLog MsgNoChanges; Console LLog MsgDone],
     Ok [Model.enriched]).
Proof.
  refine (proj2 (proj2 (enriched_records_untouched (Model.make Model.second_run)))
            (Model.make (Model.shop (Model.sized 200 200)))
            [Model.deal "x1" "https://example.com/p" "Widget"] _ _ _);
    try reflexivity.
  constructor; [right; reflexivity | constructor].
Defined.

(** C6. The catalog is written at most once, as a whole and as the last
    request of the run, and it is written exactly when the run changed a
    record; a run in which every record is skipped or fails, or which
    stops before the loop, writes no catalog. *)
Theorem catalog_written_iff_changed (E : env) :
  (forall deals,
     mkdir E (PUBLIC_IMG_DIR E) = Ok tt ->
     readDeals E (DEALS_PATH E) = Ok deals ->
     (fst (snd (for_deals E deals false)) <> deals ->
      catalog_writes (fst (main E)) = [fst (snd (for_deals E deals false))]
      /\ exists pre post,
           fst (main E)
           = (pre ++ EWriteFile (DEALS_PATH E)
                       (DealsJson (fst (snd (for_deals E deals false)))) :: post)%list
           /\ forallb is_console post = true)
     /\ (fst (snd (for_deals E deals false)) = deals ->
         catalog_writes (fst (main E)) = [])
     /\ (Forall (fun d => snd (snd (iteration E d)) = false) deals ->
         catalog_writes (fst (main E)) = []))
  /\ (forall e, mkdir E (PUBLIC_IMG_DIR E) = Throw e -> catalog_writes (fst (main E)) = [])
  /\ (forall e, readDeals E (DEALS_PATH E) = Throw e -> catalog_writes (fst (main E)) = []).
Proof.
  split; [| split].
  - intros deals Hmk Hrd.
    pose proof (main_events E deals Hmk Hrd) as Hev.
    pose proof (changed_iff_differs E deals) as Hch.
    assert (Hsame : snd (snd (for_deals E deals false)) = false ->
                    catalog_writes (fst (main E)) = []).
    { intros Hno. rewrite Hev, Hno.
      rewrite !catalog_writes_app, for_deals_writes_no_catalog. reflexivity. }
    split; [| split].
    + intros Hne. apply Hch in Hne. rewrite Hev, Hne. split.
      * rewrite !catalog_writes_app, for_deals_writes_no_catalog.
        cbn [catalog_writes app].
        now destruct (writeFile E (DEALS_PATH E) _).
      * eexists (_ ++ _)%list, _. rewrite <- app_assoc. split; [reflexivity |].
        now destruct (writeFile E (DEALS_PATH E) _).
    + intros Heq. apply Hsame.
      destruct (snd (snd (for_deals E deals false))); [| reflexivity].
      now destruct (proj1 Hch eq_refl).
    + intros Hall. apply Hsame. rewrite for_deals_map. cbn [snd orb].
      clear - Hall.
      induction Hall as [| d rest Hd _ IH]; [reflexivity |].
      cbn [existsb]. now rewrite Hd, IH.
  - intros e Hmk. unfold main, ensureDirs. rewrite Hmk. reflexivity.
  - intros e Hrd. unfold main, ensureDirs. rewrite Hrd.
    destruct (mkdir E (PUBLIC_IMG_DIR E)); reflexivity.
Qed.

(** With two deals, one whose page answers 404 and one that is enriched,
    the catalog is written once, with the enriched deal in it; when the
    only page holds no usable image, it is not written. *)
Lemma catalog_written_iff_changed_witness :
  catalog_writes (fst (main (Model.make Model.two_deals)))
  = [[Model.deal "x0" "https://example.com/gone" "Gone"; Model.enriched]]
  /\ catalog_writes (fst (main (Model.make Model.tracked))) = [].
Proof.
  split.
  - assert (Hmk : mkdir (Model.make Model.two_deals)
                    (PUBLIC_IMG_DIR (Model.make Model.two_deals)) = Ok tt)
      by reflexivity.
    assert (Hrd : readDeals (Model.make Model.two_deals)
                    (DEALS_PATH (Model.make Model.two_deals))
                  = Ok (Model.catalog Model.two_deals)) by reflexivity.
    assert (Hne : fst (snd (for_deals (Model.make Model.two_deals)
                              (Model.catalog Model.two_deals) false))
                  <> Model.catalog Model.two_deals)
      by (vm_compute; discriminate).
    pose proof (proj1 (proj1 (proj1 (catalog_written_iff_changed
                  (Model.make Model.two_deals)) _ Hmk Hrd) Hne)) as H.
    vm_compute in H. vm_compute. exact H.
  - assert (Hmk : mkdir (Model.make Model.tracked)
                    (PUBLIC_IMG_DIR (Model.make Model.tracked)) = Ok tt)
      by reflexivity.
    assert (Hrd : readDeals (Model.make Model.tracked)
                    (DEALS_PATH (Model.make Model.tracked))
                  = Ok (Model.catalog Model.tracked)) by reflexivity.
    assert (Hall : Forall (fun d => snd (snd (iteration (Model.make Model.tracked) d))
                                    = false) (Model.catalog Model.tracked))
      by (constructor; [vm_compute; reflexivity | constructor]).
    pose proof (proj2 (proj2 (proj1 (catalog_written_iff_changed
                  (Model.make Model.tracked)) _ Hmk Hrd)) Hall) as H.
    vm_compute in H. vm_compute. exact H.
Defined.

(** ** URLs *)

Lemma strip_end_cons (c : ascii) (r : string) :
  is_c0_or_space c = false -> strip_end (String c r) = String c (strip_end r).
Proof.
  intros Hc. cbn [strip_end]. rewrite Hc. now destruct (strip_end r).
Qed.

Lemma strip_start_cons (c : ascii) (r : string) :
  is_c0_or_space c = false -> strip_start (String c r) = String c r.
Proof. intros Hc. cbn [strip_start]. now rewrite Hc. Qed.

Lemma remove_tab_newline_cons (c : ascii) (r : string) :
  is_tab_or_newline c = false ->
  remove_tab_newline (String c r) = String c (remove_tab_newline r).
Proof. intros Hc. cbn [remove_tab_newline]. now rewrite Hc. Qed.

Ltac prefix_step H u :=
  let c := fresh "c" in
  destruct u as [| c u]; [discriminate H |];
  cbn [String.prefix] in H;
  match type of H with
  | (if ?dec then _ else _) = true => destruct dec as [<- |]; [| discriminate H]
  end.

Ltac clean_prefix :=
  unfold url_clean;
  rewrite strip_start_cons by reflexivity;
  rewrite !strip_end_cons by reflexivity;
  rewrite !remove_tab_newline_cons by reflexivity;
  reflexivity.

Lemma http_prefix_has_scheme (s : string) :
  Str.startsWith s "http://" = true \/ Str.startsWith s "https://" = true ->
  has_scheme s = true /\ has_scheme (url_clean s) = true
  /\ Str.startsWith s "//" = false.
Proof.
  unfold Str.startsWith. intros [H | H].
  - do 5 prefix_step H s.
    split; [reflexivity |]. split; [clean_prefix | reflexivity].
  - do 6 prefix_step H s.
    split; [reflexivity |]. split; [clean_prefix | reflexivity].
Qed.

Lemma scheme_is_not_slash (s : string) :
  has_scheme s = true -> Str.startsWith s "//" = false.
Proof.
  destruct s as [| c s]; [discriminate |].
  unfold Str.startsWith. cbn [String.prefix has_scheme].
  destruct (ascii_dec "/" c) as [<- |]; [discriminate | reflexivity].
Qed.

Section Absolutize.

Variable E : env.

(** The branches of [absolutize] on a string. *)
Lemma absolutize_string (s : string) (base : option string) :
  absolutize E (JStr s) base
  = if negb (Str.truthy s) then None
    else if Str.startsWith s "//" then Some ("https:" ++ s)
    else if Str.startsWith s "http://" || Str.startsWith s "https://" then Some s
    else URL_href E s base.
Proof. reflexivity. Qed.

Lemma absolutize_is_string (url : json) (base : option string) (h : string) :
  absolutize E url base = Some h -> exists s, url = JStr s /\ s <> "".
Proof.
  unfold absolutize. destruct (truthy url) eqn:Ht; [| discriminate].
  destruct url; try discriminate. intros _. exists s. split; [reflexivity |].
  now apply truthy_str.
Qed.

Lemma absolutize_has_scheme (url : json) (base : option string) (h : string) :
  href_has_scheme E -> absolutize E url base = Some h -> has_scheme h = true.
Proof.
  intros Hs Habs. destruct (absolutize_is_string url base h Habs) as (s & -> & Hne).
  rewrite absolutize_string in Habs.
  destruct (negb (Str.truthy s)); [discriminate |].
  destruct (Str.startsWith s "//"); [now injection Habs as <- |].
  destruct (Str.startsWith s "http://" || Str.startsWith s "https://") eqn:Hp.
  - injection Habs as <-. apply orb_true_iff in Hp.
    now apply http_prefix_has_scheme.
  - exact (Hs s base h Habs).
Qed.

(** An absolutized URL absolutizes to itself against the same base. *)
Lemma absolutize_twice (url : json) (base : option string) (h : string) :
  href_has_scheme E -> href_is_stable E ->
  absolutize E url base = Some h -> absolutize E (JStr h) base = Some h.
Proof.
  intros Hs Hst Habs.
  pose proof (absolutize_has_scheme url base h Hs Habs) as Hsch.
  rewrite absolutize_string, (scheme_is_not_slash h Hsch).
  destruct h as [| c h]; [discriminate |]. cbn [Str.truthy negb].
  destruct (Str.startsWith (String c h) "http://"
            || Str.startsWith (String c h) "https://") eqn:Hp; [reflexivity |].
  destruct (absolutize_is_string url base _ Habs) as (s & -> & Hne).
  rewrite absolutize_string in Habs.
  destruct (negb (Str.truthy s)); [discriminate |].
  destruct (Str.startsWith s "//") eqn:Hss.
  { unfold Str.startsWith in Hss. do 2 prefix_step Hss s.
    injection Habs as <- <-. unfold Str.startsWith in Hp. cbn in Hp.
    destruct s; discriminate Hp. }
  destruct (Str.startsWith s "http://" || Str.startsWith s "https://") eqn:Hp'.
  { injection Habs as ->. congruence. }
  exact (Hst s base _ Habs).
Qed.

End Absolutize.

(** The parser of the concrete environment has the three assumed facts. *)
Lemma model_href_has_scheme (w : Model.world) : href_has_scheme (Model.make w).
Proof.
  intros u base h. cbn [URL_href Model.make]. unfold Model.href.
  destruct (Model.parse u base) as [h' |]; [| discriminate].
  destruct (has_scheme h') eqn:Hs; [| discriminate]. cbn [andb].
  destruct (Model.parse h' None) as [h'' |]; [| discriminate].
  destruct (String.eqb h'' h'); [| discriminate]. now intros [= <-].
Qed.

Lemma model_href_needs_scheme (w : Model.world) :
  href_needs_scheme_without_base (Model.make w).
Proof.
  intros u h. cbn [URL_href Model.make]. unfold Model.href, Model.parse.
  destruct (has_scheme (url_clean u)); [reflexivity | discriminate].
Qed.

Lemma model_href_is_stable (w : Model.world) : href_is_stable (Model.make w).
Proof.
  intros u base h. cbn [URL_href Model.make]. unfold Model.href.
  destruct (Model.parse u base) as [h' |]; [| discriminate].
  destruct (has_scheme h') eqn:Hs; [| discriminate]. cbn [andb].
  destruct (Model.parse h' None) as [h'' |] eqn:Hp; [| discriminate].
  destruct (String.eqb h'' h') eqn:Heq; [| discriminate].
  intros [= <-]. apply String.eqb_eq in Heq. subst h''.
  assert (Hp' : Model.parse h' base = Some h').
  { revert Hp. unfold Model.parse.
    destruct (has_scheme (url_clean h')); [trivial | discriminate]. }
  now rewrite Hp', Hs, Hp, String.eqb_refl.
Qed.

(** Not every input that the parser rejects is turned into no value: one
    that starts with [http://] is returned as it is. *)
Lemma absolutize_returns_malformed :
  URL_href (Model.make Model.second_run) "http://" (Some "https://example.com/p") = None
  /\ absolutize (Model.make Model.second_run) (JStr "http://") (Some "https://example.com/p")
     = Some "http://".
Proof. split; reflexivity. Qed.

(** C8, amended. [absolutize] is a total function: it answers no value for
    an empty input and for a value that is not a string; it answers an
    input that starts with two slashes with [https:] before it, and an
    input that starts with [http://] or [https://] as it is, neither being
    checked; for any other input it answers what the URL parser makes of it
    against the base, no value if the parser rejects it. Whatever it
    answers starts with a scheme. *)
Theorem absolutize_total (E : env) (url : json) (base : option string) :
  href_has_scheme E ->
  (forall h, absolutize E url base = Some h -> has_scheme h = true)
  /\ (truthy url = false -> absolutize E url base = None)
  /\ ((forall s, url <> JStr s) -> absolutize E url base = None)
  /\ (forall s,
        url = JStr s -> Str.startsWith s "//" = true ->
        absolutize E url base = Some ("https:" ++ s))
  /\ (forall s,
        url = JStr s ->
        Str.startsWith s "http://" = true \/ Str.startsWith s "https://" = true ->
        absolutize E url base = Some s)
  /\ (forall s,
        url = JStr s -> s <> "" ->
        Str.startsWith s "//" = false ->
        Str.startsWith s "http://" = false -> Str.startsWith s "https://" = false ->
        absolutize E url base = URL_href E s base).
Proof.
  intros Hs.
  split; [| split; [| split; [| split; [| split]]]].
  - intros h. now apply absolutize_has_scheme.
  - intros Hf. unfold absolutize. now rewrite Hf.
  - intros Hns. unfold absolutize. destruct (negb (truthy url)); [reflexivity |].
    destruct url; try reflexivity. now destruct (Hns s).
  - intros s -> Hp. rewrite absolutize_string, Hp.
    destruct s; [discriminate | reflexivity].
  - intros s -> Hp. rewrite absolutize_string.
    destruct (http_prefix_has_scheme s Hp) as (_ & _ & ->).
    destruct s as [| c s]; [now destruct Hp |].
    apply orb_true_iff in Hp. now rewrite Hp.
  - intros s -> Hne H1 H2 H3. rewrite absolutize_string, H1, H2, H3.
    apply truthy_str in Hne. now rewrite Hne.
Qed.

(** A path is resolved against the page, a protocol-relative reference is
    promoted. *)
Lemma absolutize_total_witness :
  absolutize (Model.make Model.second_run) (JStr "/img/widget.jpg")
    (Some "https://example.com/p")
  = URL_href (Model.make Model.second_run) "/img/widget.jpg" (Some "https://example.com/p")
  /\ absolutize (Model.make Model.second_run) (JStr "//cdn.example.com/a.jpg") None
     = Some "https://cdn.example.com/a.jpg".
Proof.
  split.
  - refine (proj2 (proj2 (proj2 (proj2 (proj2
              (absolutize_total (Model.make Model.second_run) (JStr "/img/widget.jpg")
                 (Some "https://example.com/p") (model_href_has_scheme _))))))
              "/img/widget.jpg" _ _ _ _ _);
      try reflexivity; discriminate.
  - refine (proj1 (proj2 (proj2 (proj2
              (absolutize_total (Model.make Model.second_run)
                 (JStr "//cdn.example.com/a.jpg") None (model_href_has_scheme _)))))
              "//cdn.example.com/a.jpg" _ _);
      reflexivity.
Defined.

(** ** The generic scan *)

Section Scan.

Variable E : env.

(** Where a surviving candidate comes from, and what the filter checked. *)
Lemma large_candidate_origin (doc : document) (base : option string) (r : string) :
  In (Some r) (large_candidates E doc base) ->
  exists c,
    In c (raw_candidates E doc) /\ absolutize E (JStr c) base = Some r
    /\ r <> "" /\ isTrackingPixelUrl r = false /\ isDataUrl r = false.
Proof.
  unfold large_candidates. intros Hin. apply filter_In in Hin as [Hin Hok].
  apply in_map_iff in Hin as (c & Habs & Hc). exists c.
  cbn [usable] in Hok. apply andb_true_iff in Hok as [Hok Hdata].
  apply andb_true_iff in Hok as [Hne Htrack].
  repeat (split; [first [assumption | now apply truthy_str
                         | now apply negb_true_iff] |]).
  now apply negb_true_iff.
Qed.

(** The scan answers nothing or one of the surviving candidates. *)
Lemma pickFirstLargeImg_cases (doc : document) (base : option string) :
  pickFirstLargeImg E doc base = JNull
  \/ exists r, pickFirstLargeImg E doc base = JStr r
               /\ In (Some r) (large_candidates E doc base).
Proof.
  unfold pickFirstLargeImg. cbv zeta.
  assert (Hkept : forall u, In u (large_candidates E doc base) ->
                            exists r, u = Some r /\ truthy (JStr r) = true).
  { intros [r |] Hin; unfold large_candidates in Hin;
      apply filter_In in Hin as [_ Hok]; [| discriminate].
    exists r. split; [reflexivity |]. cbn [usable] in Hok.
    now apply andb_true_iff in Hok as [Hok%andb_true_iff _]. }
  destruct (find _ (large_candidates E doc base)) as [p |] eqn:Hfind.
  - apply find_some in Hfind as [Hin _].
    destruct (Hkept p Hin) as (r & -> & Hr). right. exists r.
    cbn [of_nullable]. split; [| assumption].
    now rewrite !(js_or_first (JStr r)).
  - rewrite (js_or_second JNull) by reflexivity.
    destruct (large_candidates E doc base) as [| u rest] eqn:Hl.
    + now left.
    + destruct (Hkept u (or_introl eq_refl)) as (r & -> & Hr). right. exists r.
      cbn [hd of_nullable]. split; [| now left].
      now rewrite (js_or_first (JStr r)).
Qed.

End Scan.

(** A relative candidate has no [http(s)://] prefix. *)
Lemma relative_has_no_http_prefix (c : string) :
  is_relative c = true ->
  Str.startsWith c "//" = false
  /\ Str.startsWith c "http://" || Str.startsWith c "https://" = false
  /\ has_scheme (url_clean c) = false.
Proof.
  unfold is_relative. intros [Hs Hc]%andb_true_iff.
  apply negb_true_iff in Hs, Hc. split; [assumption |]. split; [| assumption].
  destruct (Str.startsWith c "http://" || Str.startsWith c "https://") eqn:Hp;
    [| reflexivity].
  apply orb_true_iff in Hp.
  destruct (http_prefix_has_scheme c Hp) as (_ & Hclean & _). congruence.
Qed.

(** C9. When the landmark extractor delegates to the generic scan, which
    it calls without a base, every relative candidate of the page is turned
    into no value and dropped by the filter: what the delegation answers,
    if anything, comes from a candidate that is protocol-relative or
    already absolute. *)
Theorem no_base_scan_drops_relative (E : env) (doc : document) :
  href_needs_scheme_without_base E ->
  (forall c, is_relative c = true -> absolutize E (JStr c) None = None)
  /\ (truthy (tryEl E (select_id doc "landingImage")) = false ->
      truthy (tryEl E (select_id_descendants doc "imgTagWrapperId" "img")) = false ->
      pickAmazonImage E doc = pickFirstLargeImg E doc None
      /\ (pickAmazonImage E doc = JNull
          \/ exists c r,
               pickAmazonImage E doc = JStr r
               /\ In c (raw_candidates E doc)
               /\ is_relative c = false
               /\ absolutize E (JStr c) None = Some r
               /\ (Str.startsWith c "//" = true -> r = "https:" ++ c))).
Proof.
  intros Hnb.
  assert (Hrel : forall c, is_relative c = true -> absolutize E (JStr c) None = None).
  { intros c Hc. destruct (relative_has_no_http_prefix c Hc) as (H1 & H2 & H3).
    rewrite absolutize_string, H1, H2.
    destruct (negb (Str.truthy c)); [reflexivity |].
    destruct (URL_href E c None) as [h |] eqn:Hh; [| reflexivity].
    rewrite (Hnb c h Hh) in H3. discriminate. }
  split; [exact Hrel |].
  intros Hl Hw. unfold pickAmazonImage. cbv zeta. rewrite Hl, Hw.
  split; [reflexivity |].
  destruct (pickFirstLargeImg_cases E doc None) as [-> | (r & -> & Hin)];
    [now left | right].
  destruct (large_candidate_origin E doc None r Hin) as (c & Hc & Habs & _).
  exists c, r. split; [reflexivity |]. split; [assumption |].
  split; [| split; [assumption |]].
  - destruct (is_relative c) eqn:Hr; [| reflexivity].
    rewrite (Hrel c Hr) in Habs. discriminate.
  - intros Hp. rewrite absolutize_string, Hp in Habs.
    destruct (negb (Str.truthy c)); [discriminate |]. now injection Habs.
Qed.

(** On a product page without landmark that holds a relative and a
    protocol-relative picture, the relative one is lost and the other is
    answered. *)
Lemma no_base_scan_drops_relative_witness :
  absolutize (Model.make Model.second_run) (JStr "img/relative.jpg") None = None
  /\ pickAmazonImage (Model.make Model.second_run) Model.plain
     = JStr "https://cdn.example.com/a.jpg".
Proof.
  split; [| reflexivity].
  apply (proj1 (no_base_scan_drops_relative (Model.make Model.second_run) Model.plain
                  (model_href_needs_scheme _))).
  reflexivity.
Defined.

(** ** What is handed to the download *)




(** * Further properties *)

(** ** The matcher against what a pattern denotes *)

Lemma match_star_unfold (p : list Regex.item) (s : list ascii) :
  Regex.match_here (Regex.AnyStar :: p) s
  = Regex.match_here p s
    || match s with
       | [] => false
       | c :: s' => negb (Str.is_line_terminator c)
                    && Regex.match_here (Regex.AnyStar :: p) s'
       end.
Proof. destruct s; reflexivity. Qed.

Lemma match_here_denotes (p : list Regex.item) :
  forall s, Regex.match_here p s = true
            <-> exists x rest, s = (x ++ rest)%list /\ denotes p x.
Proof.
  induction p as [| [c |] p IH]; intros s.
  - split; [intros _; now exists [], s | reflexivity].
  - cbn [Regex.match_here denotes]. destruct s as [| c' s'].
    + split; [discriminate |]. intros (x & rest & Hs & c'' & x' & -> & _).
      discriminate.
    + rewrite andb_true_iff, IH. split.
      * intros (Hc & x & rest & -> & Hx). exists (c' :: x), rest.
        split; [reflexivity |]. now exists c', x.
      * intros (x & rest & Hs & c'' & x' & -> & Hc & Hx).
        injection Hs as <- ->. split; [assumption |]. now exists x', rest.
  - split.
    + induction s as [| c s IHs]; rewrite match_star_unfold, orb_true_iff.
      * intros [H | H]; [| discriminate].
        apply IH in H as (x & rest & Hs & Hx). exists x, rest.
        split; [assumption |]. exists [], x. now repeat split.
      * intros [H | H].
        -- apply IH in H as (x & rest & Hs & Hx). exists x, rest.
           split; [assumption |]. exists [], x. now repeat split.
        -- apply andb_true_iff in H as [Hc H]. apply negb_true_iff in Hc.
           destruct (IHs H) as (x & rest & -> & m & x' & -> & Hm & Hx).
           exists (c :: m ++ x')%list, rest. split; [reflexivity |].
           exists (c :: m), x'. split; [reflexivity |].
           split; [now constructor | assumption].
    + intros (x & rest & -> & m & x' & -> & Hm & Hx).
      induction Hm as [| c m Hc _ IHm]; rewrite match_star_unfold, orb_true_iff.
      * left. apply IH. now exists x', rest.
      * right. cbn [app]. rewrite Hc. exact IHm.
Qed.

Lemma search_denotes (p : list Regex.item) :
  forall s, Regex.search p s = true
            <-> exists pre x post, s = (pre ++ x ++ post)%list /\ denotes p x.
Proof.
  induction s as [| c s IHs]; cbn [Regex.search]; rewrite orb_true_iff.
  - rewrite match_here_denotes. split.
    + intros [(x & rest & Hs & Hx) | H]; [| discriminate]. now exists [], x, rest.
    + intros (pre & x & post & Hs & Hx). left.
      destruct pre; [| discriminate]. now exists x, post.
  - rewrite match_here_denotes, IHs. split.
    + intros [(x & rest & Hs & Hx) | (pre & x & post & -> & Hx)].
      * now exists [], x, rest.
      * now exists (c :: pre), x, post.
    + intros (pre & x & post & Hs & Hx). destruct pre as [| c' pre].
      * left. now exists x, post.
      * right. injection Hs as <- ->. now exists pre, x, post.
Qed.

Lemma denotes_app (p q : list Regex.item) :
  forall x, denotes (p ++ q) x
            <-> exists y z, x = (y ++ z)%list /\ denotes p y /\ denotes q z.
Proof.
  induction p as [| [c |] p IH]; intros x; cbn [app denotes].
  - split; [intros H; now exists [], x | now intros (y & z & -> & -> & H)].
  - split.
    + intros (c' & x' & -> & Hc & H). apply IH in H as (y & z & -> & Hy & Hz).
      exists (c' :: y), z. split; [reflexivity |]. split; [| assumption].
      now exists c', y.
    + intros (y & z & -> & (c' & y' & -> & Hc & Hy) & Hz).
      exists c', (y' ++ z)%list. split; [reflexivity |]. split; [assumption |].
      apply IH. now exists y', z.
  - split.
    + intros (m & x' & -> & Hm & H). apply IH in H as (y & z & -> & Hy & Hz).
      exists (m ++ y)%list, z. split; [now rewrite app_assoc |].
      split; [| assumption]. now exists m, y.
    + intros (y & z & -> & (m & y' & -> & Hm & Hy) & Hz).
      exists m, (y' ++ z)%list. split; [now rewrite app_assoc |].
      split; [assumption |]. apply IH. now exists y', z.
Qed.

Lemma eq_ci_lower (a b : ascii) : Str.eq_ci a b = true <-> Str.lower a = Str.lower b.
Proof. unfold Str.eq_ci. apply Ascii.eqb_eq. Qed.

Lemma denotes_lit (l : string) (x : list ascii) :
  denotes (Regex.lit l) x <-> map Str.lower (Str.chars l) = map Str.lower x.
Proof.
  unfold Regex.lit, Str.chars. revert x.
  induction (list_ascii_of_string l) as [| c cs IH]; intros x; cbn [map denotes].
  - split; [now intros -> | now destruct x].
  - split.
    + intros (c' & x' & -> & Hc & H). cbn [map].
      apply eq_ci_lower in Hc. apply IH in H. congruence.
    + destruct x as [| c' x']; [discriminate |]. cbn [map]. intros [= Hc H].
      exists c', x'. split; [reflexivity |].
      split; [now apply eq_ci_lower | now apply IH].
Qed.

Lemma chars_app (a b : string) :
  Str.chars (a ++ b) = (Str.chars a ++ Str.chars b)%list.
Proof.
  unfold Str.chars. induction a as [| c a IH]; [reflexivity |].
  cbn [String.append list_ascii_of_string app]. now rewrite IH.
Qed.

Lemma chars_inj (a b : string) : Str.chars a = Str.chars b -> a = b.
Proof.
  unfold Str.chars. intros H.
  rewrite <- (string_of_list_ascii_of_string a), H.
  apply string_of_list_ascii_of_string.
Qed.

(** A string cut where its characters are. *)
Lemma chars_split (u : string) (l1 l2 : list ascii) :
  Str.chars u = (l1 ++ l2)%list ->
  exists a b, u = a ++ b /\ Str.chars a = l1 /\ Str.chars b = l2.
Proof.
  intros H. exists (string_of_list_ascii l1), (string_of_list_ascii l2).
  unfold Str.chars. rewrite !list_ascii_of_string_of_list_ascii.
  split; [| now split]. apply chars_inj.
  rewrite chars_app. unfold Str.chars.
  now rewrite !list_ascii_of_string_of_list_ascii.
Qed.

Lemma chars_of_list (l : list ascii) : Str.chars (string_of_list_ascii l) = l.
Proof. apply list_ascii_of_string_of_list_ascii. Qed.

Ltac by_chars :=
  apply chars_inj; rewrite ?chars_app, ?chars_of_list; assumption.

(** ** The URL classifiers *)

(** X1. A URL is taken for a tracking pixel exactly when it contains
    [pixel] somewhere, or [fls-], then [.amazon.com/], then [batch], with
    no line break in between; letters in either case. *)
Theorem tracking_pixel_iff (u : string) :
  isTrackingPixelUrl u = true
  <-> (exists a x b, u = a ++ x ++ b /\ same_ci x "pixel")
      \/ (exists a f m1 h m2 t b,
            u = a ++ f ++ m1 ++ h ++ m2 ++ t ++ b
            /\ same_ci f "fls-" /\ single_line m1
            /\ same_ci h ".amazon.com/" /\ single_line m2
            /\ same_ci t "batch").
Proof.
  unfold isTrackingPixelUrl, Regex.test, same_ci, single_line.
  rewrite orb_true_iff, !search_denotes. split.
  - intros [(pre & x & post & Hu & Hx) | (pre & x & post & Hu & Hx)].
    + right.
      apply denotes_app in Hx as (f & x1 & -> & Hf & Hx).
      cbn [app denotes] in Hx. destruct Hx as (m1 & x2 & -> & Hm1 & Hx).
      apply denotes_app in Hx as (h & x3 & -> & Hh & Hx).
      cbn [app denotes] in Hx. destruct Hx as (m2 & t & -> & Hm2 & Ht).
      apply denotes_lit in Hf, Hh, Ht.
      exists (string_of_list_ascii pre), (string_of_list_ascii f),
             (string_of_list_ascii m1), (string_of_list_ascii h),
             (string_of_list_ascii m2), (string_of_list_ascii t),
             (string_of_list_ascii post).
      rewrite !chars_of_list. rewrite <- !app_assoc in Hu.
      repeat (split; [first [by_chars | assumption | now symmetry] |]).
      now symmetry.
    + left. apply denotes_lit in Hx.
      exists (string_of_list_ascii pre), (string_of_list_ascii x),
             (string_of_list_ascii post).
      rewrite !chars_of_list. split; [by_chars | now symmetry].
  - intros [(a & x & b & -> & Hx) | (a & f & m1 & h & m2 & t & b & -> & Hf & Hm1 & Hh & Hm2 & Ht)].
    + right. exists (Str.chars a), (Str.chars x), (Str.chars b).
      rewrite !chars_app. split; [reflexivity |]. now apply denotes_lit.
    + left. exists (Str.chars a),
                   (Str.chars f ++ Str.chars m1 ++ Str.chars h ++ Str.chars m2
                    ++ Str.chars t)%list, (Str.chars b).
      rewrite !chars_app. split; [now rewrite <- !app_assoc |].
      apply denotes_app. exists (Str.chars f), (Str.chars m1 ++ Str.chars h
                                                ++ Str.chars m2 ++ Str.chars t)%list.
      split; [reflexivity |]. split; [now apply denotes_lit |].
      cbn [app denotes]. exists (Str.chars m1), (Str.chars h ++ Str.chars m2
                                                 ++ Str.chars t)%list.
      split; [reflexivity |]. split; [assumption |].
      apply denotes_app. exists (Str.chars h), (Str.chars m2 ++ Str.chars t)%list.
      split; [reflexivity |]. split; [now apply denotes_lit |].
      cbn [app denotes]. exists (Str.chars m2), (Str.chars t).
      split; [reflexivity |]. split; [assumption | now apply denotes_lit].
Qed.

(** X2. A URL is taken for an Amazon URL exactly when it parses and its
    host name starts with [amazon.] or holds [.amazon.], letters in either
    case; an unparsable URL is not. *)
Theorem amazon_url_iff (E : env) (u : string) :
  isAmazonUrl E u = true
  <-> exists hostname,
        URL_hostname E u = Some hostname
        /\ ((exists x b, hostname = x ++ b /\ same_ci x "amazon.")
            \/ (exists a x b, hostname = a ++ x ++ b /\ same_ci x ".amazon.")).
Proof.
  unfold isAmazonUrl, Regex.test, Regex.test_anchored, same_ci.
  destruct (URL_hostname E u) as [hostname |].
  - rewrite orb_true_iff, match_here_denotes, search_denotes. split.
    + intros [(x & post & Hh & Hx) | (pre & x & post & Hh & Hx)];
        apply denotes_lit in Hx; exists hostname; (split; [reflexivity |]).
      * left. exists (string_of_list_ascii x), (string_of_list_ascii post).
        rewrite !chars_of_list. split; [by_chars | now symmetry].
      * right. exists (string_of_list_ascii pre), (string_of_list_ascii x),
                      (string_of_list_ascii post).
        rewrite !chars_of_list. split; [by_chars | now symmetry].
    + intros (h & [= <-] & [(x & b & -> & Hx) | (a & x & b & -> & Hx)]).
      * left. exists (Str.chars x), (Str.chars b). rewrite chars_app.
        split; [reflexivity | now apply denotes_lit].
      * right. exists (Str.chars a), (Str.chars x), (Str.chars b).
        rewrite !chars_app. split; [reflexivity | now apply denotes_lit].
  - split; [discriminate | now intros (h & [=] & _)].
Qed.

(** ** One record, outcome by outcome *)

Lemma getHtml_pair (E : env) (url : string) :
  getHtml E url = ([EFetch url page_headers], snd (getHtml E url)).
Proof.
  pose proof (getHtml_events E url) as H.
  destruct (getHtml E url) as [t r]. cbn [fst snd] in *. now subst.
Qed.

Lemma getBuffer_pair (E : env) (url referer : string) :
  getBuffer E url referer
  = ([EFetch url (image_headers referer)], snd (getBuffer E url referer)).
Proof.
  pose proof (getBuffer_events E url referer) as H.
  destruct (getBuffer E url referer) as [t r]. cbn [fst snd] in *. now subst.
Qed.

Ltac finish_cases E :=
  cbv beta iota zeta delta [bind emit lift ret];
  match goal with
  | |- context [sharp_resize_webp E ?b] =>
      destruct (sharp_resize_webp E b); [| reflexivity]
  end;
  match goal with
  | |- context [writeFile E ?p ?c] => destruct (writeFile E p c); reflexivity
  end.

Lemma try_block_by_cases (E : env) (d : Deal.t) (id url : string) :
  try_block E d id url = try_block_cases E d id url.
Proof.
  rewrite try_block_unfold. unfold try_block_cases, finish, saved.
  cbv beta iota zeta delta [bind emit lift ret].
  pose proof (getHtml_events E url) as Hp.
  destruct (getHtml E url) as [t [html | e]]; cbn [fst snd] in *; subst t;
    [| reflexivity].
  destruct (candidate E (cheerio_load E html) url) as [imgUrl |]; [| reflexivity].
  pose proof (getBuffer_events E imgUrl url) as Hb.
  destruct (getBuffer E imgUrl url) as [t [buf | e]]; cbn [fst snd] in *; subst t;
    [| reflexivity].
  destruct (degenerate (sharp_metadata E buf)); [| finish_cases E].
  rewrite try_fallback_unfold.
  destruct (fallback_candidate E (cheerio_load E html) url imgUrl) as [a |];
    [| finish_cases E].
  cbv beta iota zeta delta [bind emit].
  pose proof (getBuffer_events E a url) as Ha.
  destruct (getBuffer E a url) as [t [buf' | e]]; cbn [fst snd] in *; subst t;
    [| reflexivity].
  finish_cases E.
Qed.

Lemma requests_app (t t' : list event) :
  requests (t ++ t') = (requests t ++ requests t')%list.
Proof.
  induction t as [| e t IH]; [reflexivity |].
  destruct e; cbn [app requests]; now rewrite ?IH.
Qed.

Lemma sleeps_app (t t' : list event) : sleeps (t ++ t') = (sleeps t ++ sleeps t')%list.
Proof.
  induction t as [| e t IH]; [reflexivity |].
  destruct e; cbn [app sleeps]; now rewrite ?IH.
Qed.

Lemma image_writes_app (t t' : list event) :
  image_writes (t ++ t') = (image_writes t ++ image_writes t')%list.
Proof.
  induction t as [| e t IH]; [reflexivity |].
  destruct e as [| | | | ? []|]; cbn [app image_writes]; now rewrite ?IH.
Qed.

(** Case analysis on everything [try_block_cases] looks at. *)
Ltac block_cases :=
  unfold try_block_cases, finish; cbv zeta;
  repeat match goal with
         | |- context [match ?x with Ok _ => _ | Throw _ => _ end] =>
             let H := fresh "Hres" in destruct x eqn:H
         | |- context [match ?x with Some _ => _ | None => _ end] =>
             let H := fresh "Hopt" in destruct x eqn:H
         end.

(** An iteration, through [pending]. *)
Lemma iteration_pending (E : env) (d : Deal.t) :
  match pending d with
  | None => iteration E d = ([], (d, false))
  | Some url =>
      exists id,
        Deal.present (Deal.image d) = false
        /\ Deal.id d = Some id /\ Deal.url d = Some url /\ id <> "" /\ url <> ""
        /\ iteration E d
           = match try_block_cases E d id url with
             | (t, Ok (Saved d')) => (t, (d', true))
             | (t, Ok Skipped) => (t, (d, false))
             | (t, Throw e) => ((t ++ [Console LError (MsgFailed id e)])%list, (d, false))
             end
  end.
Proof.
  unfold pending, iteration.
  destruct (Deal.present (Deal.image d)) eqn:Himg; [reflexivity |].
  destruct (Deal.url d) as [url |]; [| reflexivity].
  destruct (Deal.id d) as [id |]; [| reflexivity].
  destruct (Str.truthy url) eqn:Hu; [| reflexivity].
  destruct (Str.truthy id) eqn:Hi; [| reflexivity].
  cbn [andb negb orb]. exists id. rewrite try_block_by_cases.
  repeat split; trivial; now apply truthy_str.
Qed.

(** ** The requests of one record *)

(** X3. For one record the script asks for the page once, with the page
    headers, and then for the images it downloads, each with the image
    headers and the page as referer: nothing else is requested, nothing is
    requested twice in a row for a retry. *)
Theorem record_requests (E : env) (d : Deal.t) (id url : string) :
  requests (fst (try_block E d id url))
  = (url, page_headers)
    :: map (fun u => (u, image_headers url)) (downloads (fst (try_block E d id url)))
  /\ (url <> "" -> assoc "Referer" (image_headers url) = Some url)
  /\ assoc "Referer" page_headers = None.
Proof.
  split; [| split; [| reflexivity]].
  - rewrite try_block_by_cases. block_cases; reflexivity.
  - intros Hu. apply truthy_str in Hu. unfold image_headers. now rewrite Hu.
Qed.

(** ** What a saved record is, and what is written for it *)

(** The outcome of an iteration that sets [changed]. *)
Lemma iteration_saved (E : env) (d : Deal.t) :
  snd (snd (iteration E d)) = true ->
  exists id url,
    pending d = Some url /\ Deal.id d = Some id /\ id <> ""
    /\ snd (try_block E d id url) = Ok (Saved (saved d id))
    /\ fst (iteration E d) = fst (try_block E d id url)
    /\ fst (snd (iteration E d)) = saved d id.
Proof.
  intros Hset. pose proof (iteration_pending E d) as H.
  destruct (pending d) as [url |]; [| rewrite H in Hset; discriminate].
  destruct H as (id & _ & Hid & _ & Hi & _ & Hit). exists id, url.
  rewrite try_block_by_cases. rewrite Hit in *. clear Hit.
  split; [reflexivity |]. split; [assumption |]. split; [assumption |].
  revert Hset. block_cases; cbn [fst snd]; intros Hset;
    first [discriminate Hset | now repeat split].
Qed.

(** X4. A record the run enriches gets the image path [/images/<id>.webp]
    made from its own id; its alternative text is kept when it has one and
    is the title otherwise; its id, url and title stay as they were. *)
Theorem saved_record_fields (E : env) (d : Deal.t) :
  snd (snd (iteration E d)) = true ->
  exists id,
    Deal.id d = Some id /\ id <> ""
    /\ Deal.image (fst (snd (iteration E d))) = Some ("/images/" ++ id ++ ".webp")
    /\ (Deal.present (Deal.imageAlt d) = true ->
        Deal.imageAlt (fst (snd (iteration E d))) = Deal.imageAlt d)
    /\ (Deal.present (Deal.imageAlt d) = false ->
        Deal.imageAlt (fst (snd (iteration E d))) = Deal.title d)
    /\ Deal.id (fst (snd (iteration E d))) = Deal.id d
    /\ Deal.url (fst (snd (iteration E d))) = Deal.url d
    /\ Deal.title (fst (snd (iteration E d))) = Deal.title d.
Proof.
  intros Hset.
  destruct (iteration_saved E d Hset) as (id & url & _ & Hid & Hi & _ & _ & ->).
  exists id. unfold saved, Deal.or_else. cbn.
  repeat (split; [first [assumption | reflexivity | now intros ->] |]).
  reflexivity.
Qed.

Lemma saved_record_fields_witness :
  Deal.image (fst (snd (iteration (Model.make (Model.shop (Model.sized 200 200)))
                                  (Model.deal "x1" "https://example.com/p" "Widget"))))
  = Some "/images/x1.webp"
  /\ Deal.imageAlt (fst (snd (iteration (Model.make (Model.shop (Model.sized 200 200)))
                                        (Model.deal "x1" "https://example.com/p" "Widget"))))
     = Some "Widget".
Proof.
  destruct (saved_record_fields (Model.make (Model.shop (Model.sized 200 200)))
              (Model.deal "x1" "https://example.com/p" "Widget")
              ltac:(vm_compute; reflexivity))
    as (id & Hid & _ & Himg & _ & Halt & _).
  injection Hid as <-. split; [exact Himg | exact (Halt eq_refl)].
Defined.

(** X5. The loop never removes, adds or reorders records, and never
    touches an id, a url or a title: the catalog it leaves has the records
    of the catalog it read, in place, each one either as it was or with a
    new image and alternative text. *)
Theorem catalog_shape_preserved (E : env) (deals : list Deal.t) (changed : bool) :
  Forall2 (fun d d' =>
             Deal.id d' = Deal.id d /\ Deal.url d' = Deal.url d
             /\ Deal.title d' = Deal.title d
             /\ (d' = d \/ Deal.present (Deal.image d) = false))
          deals (fst (snd (for_deals E deals changed))).
Proof.
  rewrite for_deals_map. cbn [fst snd].
  induction deals as [| d rest IH]; cbn [map]; constructor; [| exact IH].
  destruct (iteration_cases E d) as [[-> _] | (Hset & Himg & _)].
  - repeat split; trivial. now left.
  - destruct (iteration_saved E d Hset) as (id & url & _ & _ & _ & _ & _ & ->).
    repeat split; trivial. now right.
Qed.

(** X6. The image file of a record is written at most once, under the
    images directory and the record's id, and it holds the normalised
    bytes of the last image the record downloaded: the alternate when one
    was downloaded, the candidate otherwise. *)
Theorem written_image_is_last_download
        (E : env) (d : Deal.t) (id url path : string) (data : buffer) :
  In (path, data) (image_writes (fst (try_block E d id url))) ->
  image_writes (fst (try_block E d id url)) = [(path, data)]
  /\ path = path_join E [PUBLIC_IMG_DIR E; id ++ ".webp"]
  /\ exists buf,
       snd (getBuffer E (last (downloads (fst (try_block E d id url))) "") url) = Ok buf
       /\ sharp_resize_webp E buf = Ok data.
Proof.
  rewrite try_block_by_cases. block_cases; cbn [fst image_writes app];
    intros Hin; try contradiction;
    destruct Hin as [[= <- <-] | []];
    (split; [reflexivity |]); (split; [reflexivity |]);
    cbn -[image_headers]; rewrite ?is_image_request_image; cbn [last];
    eexists; (split; [eassumption | assumption]).
Qed.

Lemma written_image_is_last_download_witness :
  image_writes (fst (try_block (Model.make (Model.shop (Model.sized 50 50)))
                       (Model.deal "x1" "https://example.com/p" "Widget")
                       "x1" "https://example.com/p"))
  = [("/site/public/images/x1.webp", [Byte.x02])].
Proof.
  apply (written_image_is_last_download (Model.make (Model.shop (Model.sized 50 50)))
           (Model.deal "x1" "https://example.com/p" "Widget")
           "x1" "https://example.com/p").
  vm_compute. left. reflexivity.
Defined.

(** ** The whole run *)

Lemma iteration_sleeps (E : env) (d : Deal.t) :
  sleeps (fst (iteration E d)) = if snd (snd (iteration E d)) then [400] else [].
Proof.
  pose proof (iteration_pending E d) as H.
  destruct (pending d) as [url |]; [| now rewrite H].
  destruct H as (id & _ & _ & _ & _ & _ & ->).
  block_cases; cbn [fst snd]; rewrite ?sleeps_app; reflexivity.
Qed.

Lemma iteration_page_fetches (E : env) (d : Deal.t) :
  page_fetches (fst (iteration E d))
  = match pending d with Some url => [url] | None => [] end.
Proof.
  pose proof (iteration_pending E d) as H.
  destruct (pending d) as [url |]; [| now rewrite H].
  destruct H as (id & _ & _ & _ & _ & _ & ->).
  block_cases; cbn [fst snd]; rewrite ?page_fetches_app;
    cbn -[image_headers page_headers];
    rewrite ?is_image_request_image, ?is_image_request_page; reflexivity.
Qed.

(** X7. The run pauses 400 ms once after each record it enriches, and
    never after a record it passes over, skips or fails on. *)
Theorem pause_after_each_saved_record (E : env) (deals : list Deal.t) (changed : bool) :
  sleeps (fst (for_deals E deals changed))
  = map (fun _ => 400) (filter (fun d => snd (snd (iteration E d))) deals).
Proof.
  rewrite for_deals_map. cbn [fst].
  induction deals as [| d rest IH]; [reflexivity |].
  cbn [flat_map filter]. rewrite sleeps_app, iteration_sleeps, IH.
  now destruct (snd (snd (iteration E d))).
Qed.

(** X8. The run asks for one page per record that has no image, an id and
    a url, in the order of the catalog, and for no page of any other
    record; a page that failed is not asked for again. *)
Theorem one_page_fetch_per_pending_record
        (E : env) (deals : list Deal.t) (changed : bool) :
  page_fetches (fst (for_deals E deals changed))
  = flat_map (fun d => match pending d with Some url => [url] | None => [] end) deals.
Proof.
  rewrite for_deals_map. cbn [fst].
  induction deals as [| d rest IH]; [reflexivity |].
  cbn [flat_map]. now rewrite page_fetches_app, iteration_page_fetches, IH.
Qed.

(** X9. The exit code is 0 or 1, and it is 0 exactly when the images
    directory could be made, the catalog could be read and, if a record
    changed, the catalog could be written: what happens to single records
    has no part in it. *)
Theorem exit_code_iff (E : env) :
  (snd (run E) = 0 \/ snd (run E) = 1)
  /\ (snd (run E) = 0
      <-> exists u deals,
            mkdir E (PUBLIC_IMG_DIR E) = Ok u
            /\ readDeals E (DEALS_PATH E) = Ok deals
            /\ (snd (snd (for_deals E deals false)) = true ->
                exists u', writeFile E (DEALS_PATH E)
                             (DealsJson (fst (snd (for_deals E deals false)))) = Ok u')).
Proof.
  unfold run, main, ensureDirs.
  cbv beta iota zeta delta [bind emit lift ret].
  destruct (mkdir E (PUBLIC_IMG_DIR E)) as [u | e].
  2: { split; [now right |]. split; [discriminate |].
       now intros (u & deals & [=] & _). }
  destruct (readDeals E (DEALS_PATH E)) as [deals | e].
  2: { split; [now right |]. split; [discriminate |].
       now intros (u' & deals & _ & [=] & _). }
  destruct (for_deals E deals false) as [t [deals' changed]] eqn:Hfd. cbn [fst snd].
  destruct changed.
  - destruct (writeFile E (DEALS_PATH E) (DealsJson deals')) as [u' | e] eqn:Hw.
    + split; [now left |]. split; [| reflexivity].
      intros _. exists u, deals. rewrite Hfd. cbn [fst snd].
      repeat split. intros _. now exists u'.
    + split; [now right |]. split; [discriminate |].
      intros (u0 & deals0 & _ & [= <-] & Hw0). rewrite Hfd in Hw0. cbn [fst snd] in Hw0.
      destruct (Hw0 eq_refl) as [u' Hu']. congruence.
  - split; [now left |]. split; [| reflexivity].
    intros _. exists u, deals. rewrite Hfd. cbn [fst snd]. repeat split. discriminate.
Qed.

(** ** The two requests *)

Lemma ok_iff (res : response) : ok res = true <-> 200 <= status res <= 299.
Proof. unfold ok. rewrite andb_true_iff, !Z.leb_le. tauto. Qed.

(** X10. [getHtml] sends one request and answers the body exactly when
    the response has a status from 200 to 299 and its text can be read; for
    any other status it throws [GET <url> -> <status>], whatever the body. *)
Theorem getHtml_result (E : env) (url : string) :
  (forall html,
     snd (getHtml E url) = Ok html
     <-> exists res, fetch E url page_headers = Ok res
                     /\ 200 <= status res <= 299 /\ text res = Ok html)
  /\ (forall res,
        fetch E url page_headers = Ok res ->
        status res < 200 \/ 299 < status res ->
        snd (getHtml E url) = Throw ("GET " ++ url ++ " -> " ++ Str.of_Z (status res)))
  /\ requests (fst (getHtml E url)) = [(url, page_headers)].
Proof.
  split; [| split].
  - intros html. unfold getHtml, do_fetch. rewrite !snd_bind. cbn [snd emit lift].
    destruct (fetch E url page_headers) as [res | e].
    + destruct (ok res) eqn:Hok; cbn [negb snd throw].
      * split; [intros Ht; exists res; now rewrite <- ok_iff |].
        now intros (res' & [= <-] & _ & Ht).
      * split; [discriminate |]. intros (res' & [= <-] & Hs & _).
        apply ok_iff in Hs. congruence.
    + split; [discriminate | now intros (res & [=] & _)].
  - intros res Hres Hs. unfold getHtml, do_fetch. rewrite !snd_bind.
    cbn [snd emit lift]. rewrite Hres.
    destruct (ok res) eqn:Hok; [apply ok_iff in Hok; lia | reflexivity].
  - now rewrite getHtml_events.
Qed.

(** X11. [getBuffer] sends one request, with the referer among its headers
    when there is one, and answers the bytes exactly when the response has
    a status from 200 to 299 and its body can be read; for any other status
    it throws [IMG <url> -> <status>]. *)
Theorem getBuffer_result (E : env) (url referer : string) :
  (forall data,
     snd (getBuffer E url referer) = Ok data
     <-> exists res, fetch E url (image_headers referer) = Ok res
                     /\ 200 <= status res <= 299 /\ arrayBuffer res = Ok data)
  /\ (forall res,
        fetch E url (image_headers referer) = Ok res ->
        status res < 200 \/ 299 < status res ->
        snd (getBuffer E url referer)
        = Throw ("IMG " ++ url ++ " -> " ++ Str.of_Z (status res)))
  /\ requests (fst (getBuffer E url referer)) = [(url, image_headers referer)]
  /\ assoc "Referer" (image_headers referer)
     = if Str.truthy referer then Some referer else None.
Proof.
  split; [| split; [| split]].
  - intros data. unfold getBuffer, do_fetch. rewrite !snd_bind. cbn [snd emit lift].
    destruct (fetch E url (image_headers referer)) as [res | e].
    + destruct (ok res) eqn:Hok; cbn [negb snd throw].
      * split; [intros Ht; exists res; now rewrite <- ok_iff |].
        now intros (res' & [= <-] & _ & Ht).
      * split; [discriminate |]. intros (res' & [= <-] & Hs & _).
        apply ok_iff in Hs. congruence.
    + split; [discriminate | now intros (res & [=] & _)].
  - intros res Hres Hs. unfold getBuffer, do_fetch. rewrite !snd_bind.
    cbn [snd emit lift]. rewrite Hres.
    destruct (ok res) eqn:Hok; [apply ok_iff in Hok; lia | reflexivity].
  - now rewrite getBuffer_events.
  - unfold image_headers. now destruct (Str.truthy referer).
Qed.

(** ** The pickers *)

Lemma pickOgImage_from_spec (doc : document) (sels : list (string * string)) :
  (pickOgImage_from doc sels = JNull <-> Forall (no_content doc) sels)
  /\ forall v,
       pickOgImage_from doc sels = JStr v
       <-> exists pre name value post,
             sels = (pre ++ (name, value) :: post)%list
             /\ Forall (no_content doc) pre
             /\ attr_truthy (select_tag_attr doc "meta" name value) "content" = Some v.
Proof.
  induction sels as [| [name value] rest [IHn IHv]]; cbn [pickOgImage_from].
  - split; [split; [constructor | reflexivity] |].
    intros v. split; [discriminate |].
    intros (pre & n & va & post & Hs & _). now destruct pre.
  - destruct (attr_truthy (select_tag_attr doc "meta" name value) "content")
      as [c |] eqn:Hc.
    + split.
      * split; [discriminate |]. intros H. inversion H as [| ? ? Hno _]; subst.
        unfold no_content in Hno. cbn [fst snd] in Hno. congruence.
      * intros v. split.
        -- intros [= <-]. now exists [], name, value, rest.
        -- intros (pre & n & va & post & Hs & Hpre & Hv). destruct pre as [| x pre].
           ++ injection Hs as <- <- <-. congruence.
           ++ injection Hs as <- _. inversion Hpre as [| ? ? Hno _]; subst.
              unfold no_content in Hno. cbn [fst snd] in Hno. congruence.
    + split.
      * rewrite IHn. split; [now constructor | now inversion 1].
      * intros v. rewrite IHv. split.
        -- intros (pre & n & va & post & -> & Hpre & Hv).
           exists ((name, value) :: pre), n, va, post.
           split; [reflexivity |]. split; [now constructor | assumption].
        -- intros (pre & n & va & post & Hs & Hpre & Hv). destruct pre as [| x pre].
           ++ injection Hs as <- <- <-. congruence.
           ++ injection Hs as <- ->. inversion Hpre; subst.
              now exists pre, n, va, post.
Qed.

(** X12. [pickOgImage] answers the content of the first of its five meta
    selectors, in their order, whose first matching element has a content
    that is not empty, and nothing when there is none; only the first
    element a selector matches is looked at. *)
Theorem pickOgImage_first_in_order (doc : document) :
  (pickOgImage doc = JNull <-> Forall (no_content doc) og_selectors)
  /\ (forall v,
        pickOgImage doc = JStr v
        <-> exists pre name value post,
              og_selectors = (pre ++ (name, value) :: post)%list
              /\ Forall (no_content doc) pre
              /\ attr_truthy (select_tag_attr doc "meta" name value) "content" = Some v)
  /\ (forall sel v,
        attr_truthy sel "content" = Some v
        <-> exists el rest, sel = el :: rest
                            /\ assoc "content" (node_attrs el) = Some v /\ v <> "").
Proof.
  split; [apply pickOgImage_from_spec |]. split; [apply pickOgImage_from_spec |].
  intros sel v. unfold attr_truthy, attr. destruct sel as [| el rest].
  - split; [discriminate | now intros (el & rest & [=] & _)].
  - destruct (assoc "content" (node_attrs el)) as [c |] eqn:Ha.
    + destruct (Str.truthy c) eqn:Hc.
      * split.
        -- intros [= <-]. exists el, rest. split; [reflexivity |].
           split; [assumption | now apply truthy_str].
        -- intros (el' & rest' & [= <- <-] & Ha' & _). congruence.
      * split; [discriminate |].
        intros (el' & rest' & [= <- <-] & Ha' & Hne).
        apply truthy_str in Hne. congruence.
    + split; [discriminate |].
      intros (el' & rest' & [= <- <-] & Ha' & _). congruence.
Qed.

Lemma pull_truthy (obj : json) :
  truthy (pull obj) = true -> pulled_from obj (pull obj).
Proof.
  unfold pull. destruct (negb (truthy obj)); [discriminate |].
  destruct (get_prop obj "image") as [[| | | s | [| first rest] | fields] |] eqn:Himg;
    try (destruct (get_prop obj "offers") as [[| | | | | offers] |] eqn:Hoff;
         try discriminate;
         destruct (assoc "image" offers) as [[| | | s' | |] |] eqn:Hoi;
         try discriminate;
         intros _; now apply (pulled_offers_image obj _ offers s')).
  - intros _. now apply (pulled_image_string obj _ s).
  - intros _. now apply (pulled_image_first obj _ rest).
Qed.

Lemma pull_first_truthy (items : list json) :
  truthy (pull_first items) = true ->
  exists obj, In obj items /\ pull_first items = pull obj /\ truthy (pull obj) = true.
Proof.
  induction items as [| item rest IH]; cbn [pull_first]; [discriminate |].
  destruct (truthy (pull item)) eqn:Hp.
  - intros _. exists item. split; [now left | now split].
  - intros H. destruct (IH H) as (obj & Hin & Heq & Ht).
    exists obj. split; [now right | now split].
Qed.

(** X13. [pickFromLdJson] answers nothing or a truthy value, and that
    value is what [pull] finds in a block that parses, or in an item of a
    block that parses to an array: the image when it is a string, the first
    image when it is a non-empty array, or the image string of the offers.
    The block is a [script] element of the page whose [type], in whatever
    case it is written, is [application/ld+json]. *)
Theorem ldjson_result_provenance (E : env) (doc : document) :
  pickFromLdJson E doc = JNull
  \/ (truthy (pickFromLdJson E doc) = true
      /\ exists el data obj,
           (In el (all_elements doc) /\ node_tag el = "script"
            /\ exists ty, assoc "type" (node_attrs el) = Some ty
                          /\ Str.toLowerCase ty = "application/ld+json")
           /\ JSON_parse E (contents_text el) = Some data
           /\ (obj = data \/ exists items, data = JArr items /\ In obj items)
           /\ pulled_from obj (pickFromLdJson E doc)).
Proof.
  unfold pickFromLdJson.
  assert (Hsel : forall el,
             In el (select_tag_attr_ci doc "script" "type" "application/ld+json") ->
             In el (all_elements doc) /\ node_tag el = "script"
             /\ exists ty, assoc "type" (node_attrs el) = Some ty
                           /\ Str.toLowerCase ty = "application/ld+json").
  { intros el Hin. apply filter_In in Hin as [Hall Htest].
    apply andb_true_iff in Htest as [Htag Hty]. apply String.eqb_eq in Htag.
    split; [assumption |]. split; [assumption |].
    unfold attr_is_ci in Hty. destruct (assoc "type" (node_attrs el)) as [ty |];
      [| discriminate].
    apply andb_true_iff in Hty as [_ Hty]. apply String.eqb_eq in Hty.
    now exists ty. }
  revert Hsel.
  induction (select_tag_attr_ci doc "script" "type" "application/ld+json")
    as [| el rest IH]; intros Hsel; cbn [pickFromLdJson_from]; [now left |].
  destruct (truthy (pickFromLdJson_block E el)) eqn:Hb.
  - right. split; [assumption |]. exists el.
    revert Hb. unfold pickFromLdJson_block. cbv zeta.
    destruct (negb (Str.truthy (contents_text el))); [discriminate |].
    destruct (JSON_parse E (contents_text el)) as [data |]; [| discriminate].
    destruct (truthy (pull data)) eqn:Hp.
    + intros _. exists data, data. split; [apply Hsel; now left |].
      split; [reflexivity |]. split; [now left | now apply pull_truthy].
    + destruct data; try discriminate. intros Hf.
      destruct (pull_first_truthy items Hf) as (obj & Hin & -> & Ht).
      exists (JArr items), obj. split; [apply Hsel; now left |].
      split; [reflexivity |]. split; [right; now exists items | now apply pull_truthy].
  - destruct IH as [-> | (Ht & el' & data & obj & Hin & Hrest)];
      [intros el' Hin; apply Hsel; now right | now left |].
    right. split; [assumption |]. now exists el', data, obj.
Qed.

(** X14. A block whose text is empty or does not parse changes nothing:
    [pickFromLdJson] answers what it answers on the blocks that parse. *)
Theorem ldjson_skips_unusable_blocks (E : env) (scripts : list node) :
  pickFromLdJson_from E scripts
  = pickFromLdJson_from E (filter (usable_block E) scripts).
Proof.
  induction scripts as [| el rest IH]; [reflexivity |].
  cbn [filter]. destruct (usable_block E el) eqn:Hu.
  - cbn [pickFromLdJson_from]. now rewrite IH.
  - cbn [pickFromLdJson_from]. rewrite <- IH.
    replace (pickFromLdJson_block E el) with JNull; [reflexivity |].
    unfold usable_block in Hu. unfold pickFromLdJson_block. cbv zeta.
    destruct (Str.truthy (contents_text el)); [| reflexivity].
    cbn [negb andb] in *.
    now destruct (JSON_parse E (contents_text el)).
Qed.

(** X15. When the first non-empty result of the pickers is not a string,
    as when structured data describes the image by an object, the record
    has no candidate: [absolutize] answers no value for it and the pickers
    after it are not asked, whatever pictures the page holds. *)
Theorem non_string_image_skips_record (E : env) (doc : document) (url : string) :
  isAmazonUrl E url = false ->
  pickOgImage doc = JNull ->
  truthy (pickFromLdJson E doc) = true ->
  (forall s, pickFromLdJson E doc <> JStr s) ->
  candidate E doc url = None.
Proof.
  intros Ha Hog Ht Hns. unfold candidate, choose_image. rewrite Ha, Hog.
  rewrite (js_or_second JNull) by reflexivity.
  rewrite (js_or_first _ _ Ht).
  unfold absolutize. rewrite Ht. cbn [negb].
  destruct (pickFromLdJson E doc); try reflexivity. now destruct (Hns s).
Qed.

Lemma non_string_image_skips_record_witness :
  candidate (Model.make Model.structured) Model.described "https://example.com/p" = None
  /\ pickFirstLargeImg (Model.make Model.structured) Model.described
       (Some "https://example.com/p")
     = JStr "https://example.com/img/big.jpg".
Proof.
  split; [| reflexivity].
  apply non_string_image_skips_record; try reflexivity. discriminate.
Defined.

Lemma find_first {A : Type} (f : A -> bool) (l : list A) (x : A) :
  find f l = Some x ->
  exists pre post, l = (pre ++ x :: post)%list /\ f x = true
                   /\ Forall (fun y => f y = false) pre.
Proof.
  induction l as [| y l IH]; cbn [find]; [discriminate |].
  destruct (f y) eqn:Hy.
  - intros [= <-]. now exists [], l.
  - intros H. destruct (IH H) as (pre & post & -> & Hx & Hpre).
    exists (y :: pre), post. split; [reflexivity |]. split; [assumption |].
    now constructor.
Qed.

(** X16. The generic scan answers nothing exactly when no candidate
    survives the filter. Otherwise it answers a survivor, which is not
    empty, not a tracking pixel and not a [data:] URL: the first survivor on
    the media CDN when there is one, whatever comes before it, and the
    first survivor of all when there is none. *)
Theorem generic_scan_prefers_media_cdn
        (E : env) (doc : document) (base : option string) :
  (pickFirstLargeImg E doc base = JNull <-> large_candidates E doc base = [])
  /\ forall r,
       pickFirstLargeImg E doc base = JStr r ->
       r <> "" /\ isTrackingPixelUrl r = false /\ isDataUrl r = false
       /\ exists pre post,
            large_candidates E doc base = (pre ++ Some r :: post)%list
            /\ Forall (fun u => on_media_cdn u = false) pre
            /\ (isAmazonMediaUrl r = true
                \/ (pre = [] /\ Forall (fun u => on_media_cdn u = false) post)).
Proof.
  assert (Hkept : forall u, In u (large_candidates E doc base) ->
                            exists r, u = Some r /\ truthy (JStr r) = true).
  { intros [r |] Hin; unfold large_candidates in Hin;
      apply filter_In in Hin as [_ Hok]; [| discriminate].
    exists r. split; [reflexivity |]. cbn [usable] in Hok.
    now apply andb_true_iff in Hok as [Hok%andb_true_iff _]. }
  assert (Hshape : forall r,
            pickFirstLargeImg E doc base = JStr r ->
            exists pre post,
              large_candidates E doc base = (pre ++ Some r :: post)%list
              /\ Forall (fun u => on_media_cdn u = false) pre
              /\ (isAmazonMediaUrl r = true
                  \/ (pre = [] /\ Forall (fun u => on_media_cdn u = false) post))).
  { intros r. unfold pickFirstLargeImg. cbv zeta.
    change (fun u : option string =>
              match u with Some s => isAmazonMediaUrl s | None => false end)
      with on_media_cdn.
    destruct (find on_media_cdn (large_candidates E doc base)) as [p |] eqn:Hfind.
    - destruct (find_first _ _ _ Hfind) as (pre & post & Hl & Hp & Hpre).
      destruct (Hkept p) as (r' & -> & Hr'); [rewrite Hl; apply in_elt |].
      cbn [of_nullable]. rewrite !(js_or_first (JStr r')) by assumption.
      intros [= <-]. exists pre, post. split; [assumption |].
      split; [assumption | now left].
    - rewrite (js_or_second JNull) by reflexivity.
      destruct (large_candidates E doc base) as [| u rest] eqn:Hl.
      + discriminate.
      + destruct (Hkept u (or_introl eq_refl)) as (r' & -> & Hr').
        cbn [hd of_nullable]. rewrite (js_or_first (JStr r')) by assumption.
        intros [= <-]. exists [], rest. split; [reflexivity |].
        split; [constructor |]. right. split; [reflexivity |].
        apply Forall_forall. intros x Hx.
        apply (find_none _ _ Hfind). now right. }
  assert (Hsome : large_candidates E doc base <> [] ->
                  exists r, pickFirstLargeImg E doc base = JStr r).
  { intros Hne. destruct (pickFirstLargeImg_cases E doc base) as [Hnull | (r & Hr & _)];
      [| now exists r].
    exfalso. revert Hnull. unfold pickFirstLargeImg. cbv zeta.
    destruct (find _ (large_candidates E doc base)) as [p |] eqn:Hfind.
    - apply find_some in Hfind as [Hin _].
      destruct (Hkept p Hin) as (r' & -> & Hr').
      cbn [of_nullable]. now rewrite !(js_or_first (JStr r')).
    - rewrite (js_or_second JNull) by reflexivity.
      destruct (large_candidates E doc base) as [| u rest]; [contradiction |].
      destruct (Hkept u (or_introl eq_refl)) as (r' & -> & Hr').
      cbn [hd of_nullable]. now rewrite (js_or_first (JStr r')). }
  split.
  - split.
    + intros Hnull.
      destruct (large_candidates E doc base) as [| u rest]; [reflexivity |].
      destruct Hsome as [r Hr]; [discriminate | congruence].
    + intros Hl. unfold pickFirstLargeImg. cbv zeta. now rewrite Hl.
  - intros r Hr.
    destruct (Hshape r Hr) as (pre & post & Hl & Hrest).
    destruct (large_candidate_origin E doc base r) as (_ & _ & _ & Hne & Hpx & Hdata).
    { rewrite Hl. apply in_elt. }
    repeat (split; [assumption |]). now exists pre, post.
Qed.

(** On a page with a plain picture before one of the media CDN, the second
    is answered. *)
Lemma generic_scan_prefers_media_cdn_witness :
  isTrackingPixelUrl "https://m.media-amazon.com/images/I/second.jpg" = false
  /\ pickFirstLargeImg (Model.make Model.second_run) Model.gallery None
     = JStr "https://m.media-amazon.com/images/I/second.jpg".
Proof.
  split; [| reflexivity].
  apply (proj2 (generic_scan_prefers_media_cdn (Model.make Model.second_run)
                  Model.gallery None)
           "https://m.media-amazon.com/images/I/second.jpg").
  reflexivity.
Defined.

(** X17. What [absolutize] answers is never empty and never starts with
    two slashes, and [absolutize] answers it again when given it with the
    same base, as [main] does with the result of the generic scan:
    absolutizing twice against one base is absolutizing once. *)
Theorem absolutize_idempotent
        (E : env) (url : json) (base : option string) (h : string) :
  href_has_scheme E -> href_is_stable E ->
  absolutize E url base = Some h ->
  h <> "" /\ Str.startsWith h "//" = false
  /\ absolutize E (JStr h) base = Some h.
Proof.
  intros Hs Hst Habs.
  pose proof (absolutize_has_scheme E url base h Hs Habs) as Hsch.
  split; [now destruct h |]. split; [now apply scheme_is_not_slash |].
  exact (absolutize_twice E url base h Hs Hst Habs).
Qed.

(** A path resolved against the page, and resolved again against it. *)
Lemma absolutize_idempotent_witness :
  absolutize (Model.make Model.second_run) (JStr "/img/widget.jpg")
    (Some "https://example.com/p")
  = Some "https://example.com/img/widget.jpg"
  /\ absolutize (Model.make Model.second_run) (JStr "https://example.com/img/widget.jpg")
       (Some "https://example.com/p")
     = Some "https://example.com/img/widget.jpg".
Proof.
  split; [reflexivity |].
  apply (absolutize_idempotent (Model.make Model.second_run) (JStr "/img/widget.jpg")
           (Some "https://example.com/p") "https://example.com/img/widget.jpg"
           (model_href_has_scheme _) (model_href_is_stable _)).
  reflexivity.
Defined.

(** X18. A size map that cannot be used, because it does not parse, is
    [null], or holds a size whose conversion to a number throws, is the
    same as no map: with no other attribute on the landmark and no image in
    the wrapper, the landmark extractor answers what the generic scan
    without base answers. *)
Theorem unusable_map_falls_through
        (E : env) (doc : document) (dyn : string) :
  select_id doc "landingImage" <> [] ->
  attr_truthy (select_id doc "landingImage") "data-old-hires" = None ->
  attr_truthy (select_id doc "landingImage") "src" = None ->
  attr_truthy (select_id doc "landingImage") "data-a-dynamic-image" = Some dyn ->
  parse_dynamic_image E dyn = None
  \/ parse_dynamic_image E dyn = Some JNull
  \/ (exists json entries e,
        parse_dynamic_image E dyn = Some json
        /\ Object_entries json = Some entries
        /\ largest_from E entries None Double.zero = Throw e) ->
  select_id_descendants doc "imgTagWrapperId" "img" = [] ->
  pickAmazonImage E doc = pickFirstLargeImg E doc None.
Proof.
  intros Hel Hold Hsrc Hdyn Hbad Hwrap. unfold pickAmazonImage. cbv zeta.
  assert (Hl : tryEl E (select_id doc "landingImage") = JNull).
  { unfold tryEl. destruct (select_id doc "landingImage"); [contradiction |].
    rewrite Hold, Hsrc, Hdyn. unfold tryEl_dynamic.
    destruct Hbad as [-> | [-> | (json & entries & e & -> & -> & ->)]]; reflexivity. }
  now rewrite Hl, Hwrap.
Qed.

Lemma unusable_map_falls_through_witness :
  pickAmazonImage (Model.make Model.second_run) Model.broken_map
  = JStr "https://example.com/img/big.jpg".
Proof.
  rewrite (unusable_map_falls_through (Model.make Model.second_run) Model.broken_map
             "{oops"); try reflexivity.
  - discriminate.
  - now left.
Defined.

(** ** The entries of a srcset *)






